(** * Representation of renewable-energy time series per region

    A shallow embedding of [FINE/spagat/RE_representation.py]: the per-region
    filtering of the rasterized grid, the simple (capacity-weighted)
    aggregation, the per-cluster aggregation, and the fan-out over regions
    followed by [xr.merge].

    Numbers.  Grid values are finite numbers or missing (NaN); finite values
    are exact rationals ([Qc]), so the statements below are the exact
    counterparts of the properties that hold "within floating-point
    tolerance" on binary64.  A quotient can also be infinite, see [float].
    Rounding and overflow of binary64 are not part of the model; the
    evaluations that involve the cast of a total to an integer are on
    capacities that binary64 represents and sums exactly. *)

From Stdlib Require Import QArith Qcanon.
From stdpp Require Import gmap strings list fin_maps numbers pretty.

(** ** Numeric values *)

(** An array element: [Some q] is the finite value [q], [None] is NaN. *)
Abbreviation value := (option Qc).

(** The result of a floating-point division of two finite numbers. *)
Inductive float : Type :=
  | NaN
  | Inf (negative : bool)
  | Fin (q : Qc).

Global Instance float_eq_dec : EqDecision float.
Proof. solve_decision. Defined.

Section numeric.
Local Open Scope Qc_scope.

(** [a > 0] on an array element: a comparison with NaN is False. *)
Definition gt0 (v : value) : bool :=
  match v with
  | Some q => bool_decide (0 < q)
  | None => false
  end.

(** Elementwise product of two array elements: NaN is absorbing. *)
Definition vmul (a b : value) : value :=
  match a, b with
  | Some x, Some y => Some (x * y)
  | _, _ => None
  end.

(** [sum] with xarray's default [skipna=True] on float data: missing
    entries count as zero, the empty sum is [0.0]. *)
Definition nansum (l : list value) : Qc :=
  foldr (λ v acc, default 0 v + acc) 0 l.

(** numpy's true division of finite operands (errors are warnings, the
    default [np.seterr] state): [0/0] is NaN, [x/0] is an infinity of the
    sign of [x] (the divisors here are sums of positive numbers or the empty
    sum, never a negative zero). *)
Definition fdiv (a b : Qc) : float :=
  if decide (b = 0) then
    if decide (a = 0) then NaN else Inf (bool_decide (a < 0))
  else Fin (a / b).

(** Product and sum of floats, used to state the power balance. *)
Definition fsign (q : Qc) : bool := bool_decide (q < 0).

Definition fmul (a b : float) : float :=
  match a, b with
  | NaN, _ | _, NaN => NaN
  | Fin x, Fin y => Fin (x * y)
  | Inf s, Inf s' => Inf (xorb s s')
  | Inf s, Fin y | Fin y, Inf s =>
      if decide (y = 0) then NaN else Inf (xorb s (fsign y))
  end.

Definition fadd (a b : float) : float :=
  match a, b with
  | NaN, _ | _, NaN => NaN
  | Fin x, Fin y => Fin (x + y)
  | Inf s, Inf s' => if decide (s = s') then Inf s else NaN
  | Inf s, Fin _ | Fin _, Inf s => Inf s
  end.

Definition fsum (l : list float) : float := foldr fadd (Fin 0) l.

End numeric.

(** Truncation toward zero. *)
Definition Qc_trunc (q : Qc) : Z := (Qnum q ÷ Zpos (Qden q))%Z.

(** What storing a float64 into an [int64] array element does (numpy casts
    on assignment): the value is truncated toward zero; a value outside the
    [int64] range becomes [-2^63] (the x86-64 conversion result). *)
Definition astype_int64 (q : Qc) : Z :=
  let z := Qc_trunc q in
  if decide (- 2 ^ 63 ≤ z < 2 ^ 63)%Z then z else (- 2 ^ 63)%Z.

(** ** Labelled arrays *)

(** A [DataArray] over the stacked cell axis [x_y]: the labels present, in
    order, and the data by label.  A label is the position of the cell in
    the stacked grid ([stack(x_y=[longitude, latitude])]).  For the capacity
    the data of a cell is a [value]; for the capacity factor it is a
    [series], one [value] per time step. *)
Record DataArray (A : Type) : Type := mkDA {
  x_y : list nat;
  values : nat → A;
}.
Arguments mkDA {A} _ _.
Arguments x_y {A} _.
Arguments values {A} _ _.

Abbreviation series := (nat → value).

(** The rasterized dataset, indexed by stacked cell, time step and region. *)
Record rasterized_ds : Type := {
  n_cells : nat;
  n_timeSteps : nat;
  region_ids : list string;
  capacity : nat → value;
  capfac : nat → nat → value;
  rasters : string → nat → Z;
}.

(** [a.where(cond)]: the value where [cond] holds, NaN elsewhere. *)
Definition where_1d (a : DataArray value) (cond : nat → bool) : DataArray value :=
  mkDA (x_y a) (λ i, if cond i then values a i else None).

Definition where_2d (a : DataArray series) (cond : nat → bool) : DataArray series :=
  mkDA (x_y a) (λ i t, if cond i then values a i t else None).

(** [a.dropna(dim='x_y')] with the default [how='any']: a label is kept
    when none of its values is missing. *)
Definition dropna_1d (a : DataArray value) : DataArray value :=
  mkDA (filter (λ i, is_Some (values a i)) (x_y a)) (values a).

Definition dropna_2d (T : nat) (a : DataArray series) : DataArray series :=
  mkDA (filter (λ i, Forall (λ t, is_Some (values a i t)) (seq 0 T)) (x_y a))
       (values a).

(** [c * f] of two labelled arrays: xarray aligns the operands on [x_y]
    with an inner join (labels of both, in the order of the left operand)
    and broadcasts the capacity over time. *)
Definition mul_da (c : DataArray value) (f : DataArray series) : DataArray series :=
  mkDA (filter (λ i, i ∈ x_y f) (x_y c)) (λ i t, vmul (values c i) (values f i t)).

(** [a.sum(dim='x_y')]. *)
Definition sum_1d (a : DataArray value) : Qc :=
  nansum (values a <$> x_y a).

Definition sum_2d (a : DataArray series) (t : nat) : Qc :=
  nansum ((λ i, values a i t) <$> x_y a).

(** ** Per-region preprocessing (STEP 2 to STEP 2c)

    The two nested functions [_simply_aggregate_RE_technology] and
    [_cluster_RE_technology] run the same statements up to the power
    curves; they are embedded once. *)
Section regional.
Context (ds : rasterized_ds) (region : string).

(** [regional_ds.rasters == 1] *)
Definition in_region (i : nat) : bool :=
  bool_decide (rasters ds region i = 1%Z).

(** STEP 2 and 2b (i): mask by the raster, stack the cells. *)
Definition masked_capfac_da : DataArray series :=
  where_2d (mkDA (seq 0 (n_cells ds)) (capfac ds)) in_region.

Definition masked_capacity_da : DataArray value :=
  where_1d (mkDA (seq 0 (n_cells ds)) (capacity ds)) in_region.

(** [regional_capacity_da > 0] *)
Definition capacity_positive (i : nat) : bool :=
  gt0 (values masked_capacity_da i).

(** STEP 2b (ii) and (iii): mask where the capacity is not positive, then
    drop the cells with a missing value, in each array. *)
Definition regional_capfac_da : DataArray series :=
  dropna_2d (n_timeSteps ds) (where_2d masked_capfac_da capacity_positive).

Definition regional_capacity_da : DataArray value :=
  dropna_1d (where_1d masked_capacity_da capacity_positive).

(** The number of time series printed for the region. *)
Definition n_ts : nat := length (x_y regional_capfac_da).

(** STEP 2c *)
Definition regional_power_da : DataArray series :=
  mul_da regional_capacity_da regional_capfac_da.
End regional.

(** ** Simple aggregation *)

(** The fragment returned for one region in simple mode.  The capacity
    array is created by [xr.DataArray(0, ...)], an integer array, so the
    total assigned into it is cast; the time series array is created from
    [np.zeros], a float array. *)
Record simple_fragment : Type := {
  represented_capacity : Z;
  represented_timeSeries : list float;
}.

Global Instance simple_fragment_eq_dec : EqDecision simple_fragment.
Proof. solve_decision. Defined.

(** STEP 2d and STEP 3, on the arrays of a region that [sel] finds once on
    the [region_ids] axis, over at least one time step; what the call does
    on the other selections is in [simple_task] below. *)
Definition _simply_aggregate_RE_technology
    (ds : rasterized_ds) (region : string) : simple_fragment :=
  let capacity_total := sum_1d (regional_capacity_da ds region) in
  let power_total := sum_2d (regional_power_da ds region) in
  let capfac_total :=
    (λ t, fdiv (power_total t) capacity_total) <$> seq 0 (n_timeSteps ds) in
  {| represented_capacity := astype_int64 capacity_total;
     represented_timeSeries := capfac_total |}.

(** ** Exceptions *)

Inductive exn : Type :=
  | ValueError_negative_dimensions  (* [np.zeros] with a negative size *)
  | ClusteringError                 (* raised inside [agg_cluster.fit] *)
  | IndexError_boolean_index        (* boolean index of the wrong length *)
  | IndexError_list_index           (* [TS_ids[i]] out of range *)
  | MergeError                      (* conflicting values in [xr.merge] *)
  | KeyError_region_ids             (* [sel] of a label that is not on the axis *)
  | ValueError_reshape              (* [stack] of an array without time steps *)
  | ValueError_assignment.          (* [.loc[region] = ...] with several totals *)

Global Instance exn_eq_dec : EqDecision exn.
Proof. solve_decision. Defined.

Inductive result (A : Type) : Type :=
  | Ok (a : A)
  | Raise (e : exn).
Arguments Ok {A} _.
Arguments Raise {A} _.

Global Instance result_eq_dec `{EqDecision A} : EqDecision (result A).
Proof. solve_decision. Defined.

Global Instance result_ret : MRet result := λ A, Ok.
Global Instance result_bind : MBind result := λ A B f m,
  match m with
  | Ok a => f a
  | Raise e => Raise e
  end.

(** A [for] loop over [range] that threads the arrays written in its body. *)
Fixpoint for_each {State : Type} (body : nat → State → result State)
    (range : list nat) (st : State) : result State :=
  match range with
  | [] => Ok st
  | i :: range => st' ← body i st; for_each body range st'
  end.

(** ** Cluster aggregation *)

(** Positional selection by a boolean array. *)
Fixpoint select {A : Type} (mask : list bool) (l : list A) : list A :=
  match mask, l with
  | b :: mask, x :: l => if b then x :: select mask l else select mask l
  | _, _ => []
  end.

(** The boolean array [labels_ == i]. *)
Definition cluster_mask (labels : list nat) (i : nat) : list bool :=
  (λ l, bool_decide (l = i)) <$> labels.

(** [a[mask]]: xarray refuses a boolean index whose length is not the
    length of the indexed dimension. *)
Definition boolean_index {A : Type} (a : DataArray A) (mask : list bool)
    : result (DataArray A) :=
  if decide (length mask = length (x_y a)) then
    Ok (mkDA (select mask (x_y a)) (values a))
  else Raise IndexError_boolean_index.

(** The array handed to the clustering: one row per cell, one column per
    time step. *)
Definition samples (T : nat) (a : DataArray series) : list (list value) :=
  (λ i, values a i <$> seq 0 T) <$> x_y a.

(** The labels of the [TS_ids] coordinate. *)
Definition TS_ids (n_timeSeries_perRegion : Z) : list string :=
  (λ i : nat, "TS_" +:+ pretty i) <$> seq 0 (Z.to_nat n_timeSeries_perRegion).

(** The fragment returned for one region in cluster mode, by position of
    the [TS_ids] coordinate (label [TS_i] stands at position [i]): a
    capacity, and a time series. *)
Record cluster_fragment : Type := {
  represented_capacities : list Qc;
  represented_timeSeries_perTS : list (list float);
}.

Global Instance cluster_fragment_eq_dec : EqDecision cluster_fragment.
Proof. solve_decision. Defined.

Section cluster.
(** [AgglomerativeClustering(n_clusters, affinity="euclidean",
    linkage).fit(X).labels_] of scikit-learn, for the linkage of the
    invocation: the label of each row of [X], or [None] when [fit]
    raises. *)
Context (fit : Z → list (list value) → option (list nat)).
Context (n_timeSeries_perRegion : Z).
Context (ds : rasterized_ds) (region : string).

(** The body of the aggregation loop (STEP 2e) for cluster [i]. *)
Definition aggregate_cluster (labels : list nat) (i : nat)
    (st : cluster_fragment) : result cluster_fragment :=
  let mask := cluster_mask labels i in
  cluster_capacity ← boolean_index (regional_capacity_da ds region) mask;
  let cluster_capacity_total := sum_1d cluster_capacity in
  _ ← match TS_ids n_timeSeries_perRegion !! i with
      | Some _ => Ok ()
      | None => Raise IndexError_list_index
      end;
  let capacities := <[i := cluster_capacity_total]> (represented_capacities st) in
  cluster_power ← boolean_index (regional_power_da ds region) mask;
  let cluster_power_total := sum_2d cluster_power in
  let cluster_capfac_total :=
    (λ t, fdiv (cluster_power_total t) cluster_capacity_total)
      <$> seq 0 (n_timeSteps ds) in
  Ok {| represented_capacities := capacities;
        represented_timeSeries_perTS :=
          <[i := cluster_capfac_total]> (represented_timeSeries_perTS st) |}.

(** STEP 1 and STEP 2d to STEP 3, on the arrays of a region that [sel]
    finds once, over at least one time step; the other selections are in
    [cluster_task] below. *)
Definition _cluster_RE_technology : result cluster_fragment :=
  if decide (n_timeSeries_perRegion < 0)%Z then
    Raise ValueError_negative_dimensions
  else
    let n := Z.to_nat n_timeSeries_perRegion in
    let zeros :=
      {| represented_capacities := replicate n 0%Qc;
         represented_timeSeries_perTS :=
           replicate n (replicate (n_timeSteps ds) (Fin 0%Qc)) |} in
    match fit n_timeSeries_perRegion
            (samples (n_timeSteps ds) (regional_capfac_da ds region)) with
    | None => Raise ClusteringError
    | Some labels_ =>
        for_each (aggregate_cluster labels_)
          (seq 0 (length (remove_dups labels_))) zeros
    end.
End cluster.

(** ** Merge of the per-region fragments *)

(** A dataset indexed by [region_ids]: the data of each region label. *)
Inductive regional_data : Type :=
  | Simple (f : simple_fragment)
  | Clustered (f : cluster_fragment).

Global Instance regional_data_eq_dec : EqDecision regional_data.
Proof. solve_decision. Defined.

Global Instance map_agree_dec `{EqDecision A} :
  RelDecision (map_agree (M := gmap string) (A := A)).
Proof. unfold map_agree. apply _. Defined.

(** [xr.merge] with its defaults ([join='outer'], [compat='no_conflicts']):
    the labels of the result are the union of the labels of the operands;
    a label carried by two operands must carry the same data.  (xarray also
    lets a missing value be filled from the other operand; fragments of
    different regions share no label, so this does not arise here.) *)
Definition merge2 `{EqDecision A} (a b : gmap string A) : result (gmap string A) :=
  if decide (map_agree a b) then Ok (a ∪ b) else Raise MergeError.

Fixpoint merge_into `{EqDecision A} (acc : gmap string A)
    (l : list (gmap string A)) : result (gmap string A) :=
  match l with
  | [] => Ok acc
  | d :: l => acc' ← merge2 acc d; merge_into acc' l
  end.

Definition xr_merge `{EqDecision A} (l : list (gmap string A))
    : result (gmap string A) :=
  merge_into ∅ l.

(** ** The tasks *)

(** [rasterized_RE_ds.sel(region_ids = region)] keeps the entries of the
    [region_ids] axis that carry the label: none raises [KeyError]; one
    gives the arrays of the region, without the [region_ids] dimension;
    several keep a [region_ids] dimension of that length. *)
Definition sel_region_ids (ds : rasterized_ds) (region : string) : list string :=
  filter (λ r, r = region) (region_ids ds).

(** [client.submit(_simply_aggregate_RE_technology, region)]: the call of
    the aggregator with the exceptions of its array operations.
    [_simply_aggregate_RE_technology] above is the function on a selection
    of one entry with at least one time step.  Without time steps the
    [stack] of the capacity factors (l.107) raises: the reshape of an empty
    array to (0, -1) is refused.  With several entries the totals of l.130
    are an array of that length, and its assignment to the one element of
    [represented_capacities] (l.131) raises. *)
Definition simple_task (ds : rasterized_ds) (region : string)
    : result simple_fragment :=
  match sel_region_ids ds region with
  | [] => Raise KeyError_region_ids
  | _ :: others =>
      if decide (n_timeSteps ds = 0) then Raise ValueError_reshape
      else if decide (others = []) then
        Ok (_simply_aggregate_RE_technology ds region)
      else Raise ValueError_assignment
  end.

(** [client.submit(_cluster_RE_technology, region)].  The result arrays are
    allocated first (l.156), then the region is selected (l.169) and the
    capacity factors stacked (l.177).  With several entries selected the
    array handed to [fit] (l.202) has three dimensions and [fit] raises. *)
Definition cluster_task
    (fit : Z → list (list value) → option (list nat))
    (n_timeSeries_perRegion : Z) (ds : rasterized_ds) (region : string)
    : result cluster_fragment :=
  if decide (n_timeSeries_perRegion < 0)%Z then
    Raise ValueError_negative_dimensions
  else
    match sel_region_ids ds region with
    | [] => Raise KeyError_region_ids
    | _ :: others =>
        if decide (n_timeSteps ds = 0) then Raise ValueError_reshape
        else if decide (others = []) then
          _cluster_RE_technology fit n_timeSeries_perRegion ds region
        else Raise ClusteringError
    end.

(** ** The scheduler *)

(** [represent_RE_technology] from STEP 1's result on: [rasterized_RE_ds]
    is the value returned by [RE_rep_utils.rasterize_xr_ds].  One task per
    entry of [region_ids] is submitted; [client.gather] returns the results
    in the order of submission and re-raises the exception of a failed
    task.  The tasks only read the dataset, so they are evaluated here one
    after the other. *)
Definition represent_RE_technology
    (fit : Z → list (list value) → option (list nat))
    (rasterized_RE_ds : rasterized_ds) (n_timeSeries_perRegion : Z)
    : result (gmap string regional_data) :=
  results ←
    (if decide (n_timeSeries_perRegion = 1%Z) then
       mapM (λ region,
               f ← simple_task rasterized_RE_ds region;
               Ok {[ region := Simple f ]})
            (region_ids rasterized_RE_ds)
     else
       mapM (λ region,
               f ← cluster_task fit n_timeSeries_perRegion
                      rasterized_RE_ds region;
               Ok {[ region := Clustered f ]})
            (region_ids rasterized_RE_ds));
  xr_merge results.

(** ** The regional cell set, in the words of the specification *)

(** The cell belongs to the region ([rasters == 1]). *)
Definition regional_cell (ds : rasterized_ds) (region : string) (i : nat) : Prop :=
  rasters ds region i = 1%Z.

Global Instance regional_cell_dec ds region i : Decision (regional_cell ds region i).
Proof. unfold regional_cell. apply _. Defined.

(** The capacity of the cell is present and strictly positive. *)
Definition positive_capacity (ds : rasterized_ds) (i : nat) : Prop :=
  gt0 (capacity ds i).

Global Instance positive_capacity_dec ds i : Decision (positive_capacity ds i).
Proof. unfold positive_capacity. apply _. Defined.

(** No time step of the capacity factor of the cell is missing. *)
Definition complete_capfac (ds : rasterized_ds) (i : nat) : Prop :=
  Forall (λ t, is_Some (capfac ds i t)) (seq 0 (n_timeSteps ds)).

Global Instance complete_capfac_dec ds i : Decision (complete_capfac ds i).
Proof. unfold complete_capfac. apply _. Defined.

(** The cells of the region with a strictly positive capacity. *)
Definition capacity_cells (ds : rasterized_ds) (region : string) : list nat :=
  filter (λ i, regional_cell ds region i ∧ positive_capacity ds i)
         (seq 0 (n_cells ds)).

(** The filtered (surviving) cells: cells of the region with a strictly
    positive capacity and no missing capacity factor. *)
Definition filtered_cells (ds : rasterized_ds) (region : string) : list nat :=
  filter (λ i, regional_cell ds region i ∧ positive_capacity ds i
               ∧ complete_capfac ds i)
         (seq 0 (n_cells ds)).

(** The capacity [c_i] and the capacity factor [f_i(t)] of a cell. *)
Definition cell_capacity (ds : rasterized_ds) (i : nat) : Qc :=
  default 0%Qc (capacity ds i).

Definition cell_capfac (ds : rasterized_ds) (i t : nat) : Qc :=
  default 0%Qc (capfac ds i t).

(** Finite sums. *)
Definition sumQ (l : list Qc) : Qc := foldr Qcplus 0%Qc l.

(** The two filtered arrays of a region carry the same cells. *)
Definition lockstep (ds : rasterized_ds) (region : string) : Prop :=
  x_y (regional_capacity_da ds region) = x_y (regional_capfac_da ds region).

(** ** The clusters, in terms of the cells of the grid *)

(** The filtered cells that carry label [i]. *)
Definition cluster_cells (ds : rasterized_ds) (region : string)
    (labels : list nat) (i : nat) : list nat :=
  select (cluster_mask labels i) (filtered_cells ds region).

(** Total capacity and total power of the cells of cluster [i]. *)
Definition cluster_capacity (ds : rasterized_ds) (region : string)
    (labels : list nat) (i : nat) : Qc :=
  sumQ (cell_capacity ds <$> cluster_cells ds region labels i).

Definition cluster_power (ds : rasterized_ds) (region : string)
    (labels : list nat) (i t : nat) : Qc :=
  sumQ ((λ j, cell_capacity ds j * cell_capfac ds j t)%Qc
          <$> cluster_cells ds region labels i).

Definition cluster_capfac (ds : rasterized_ds) (region : string)
    (labels : list nat) (i : nat) : list float :=
  (λ t, fdiv (cluster_power ds region labels i t)
             (cluster_capacity ds region labels i))
    <$> seq 0 (n_timeSteps ds).

(** The allocation of the cluster aggregator: [np.zeros]. *)
Definition zeros_fragment (K T : nat) : cluster_fragment :=
  {| represented_capacities := replicate K 0%Qc;
     represented_timeSeries_perTS := replicate K (replicate T (Fin 0%Qc)) |}.

(** Reading the output: the capacity of time series [TS_k] and its
    capacity factor at time step [t]. *)
Definition TS_capacity (frag : cluster_fragment) (k : nat) : Qc :=
  default 0%Qc (represented_capacities frag !! k).

Definition TS_capfac (frag : cluster_fragment) (k t : nat) : float :=
  default NaN (represented_timeSeries_perTS frag !! k ≫= (.!! t)).

(** The labels returned by the clustering form [K] clusters over the
    surviving cells: one label per cell, each in [0, K), [K] of them
    distinct. *)
Definition K_clusters (K : nat) (cells : nat) (labels : list nat) : Prop :=
  length labels = cells
  ∧ Forall (λ l, l < K) labels
  ∧ length (remove_dups labels) = K.

(** The labels of the [region_ids] coordinate of a merged dataset. *)
Definition region_coordinate {A} (out : gmap string A) : list string :=
  (map_to_list out).*1.


(** ** Example datasets *)

(** The finite value [a/b]. *)
Definition rat (a : Z) (b : positive) : value := Some (Q2Qc (a # b)).

(** The two regions of the specification's scenario and a region without
    cells: region A has four cells of capacity 1 and capacity factor 0.5 at
    both time steps; region B has two cells of capacities 2 and 3 with the
    series [0.1, 0.2] and [0.3, 0.4]. *)
Definition scenario_ds : rasterized_ds :=
  {| n_cells := 6;
     n_timeSteps := 2;
     region_ids := ["A"; "B"; "C"];
     capacity := λ i, match i with 4 => rat 2 1 | 5 => rat 3 1 | _ => rat 1 1 end;
     capfac := λ i t,
       match i, t with
       | 4, 0 => rat 1 10 | 4, _ => rat 2 10
       | 5, 0 => rat 3 10 | 5, _ => rat 4 10
       | _, _ => rat 1 2
       end;
     rasters := λ region i,
       if decide (region = "A") then (if decide (i < 4) then 1%Z else 0%Z)
       else if decide (region = "B") then (if decide (4 ≤ i) then 1%Z else 0%Z)
       else 0%Z |}.

(** A region of two cells with the capacities 0.5 and 1. *)
Definition fractional_ds : rasterized_ds :=
  {| n_cells := 2;
     n_timeSteps := 1;
     region_ids := ["R"];
     capacity := λ i, match i with 0 => rat 1 2 | _ => rat 1 1 end;
     capfac := λ i t, match i with 0 => rat 1 2 | _ => rat 1 1 end;
     rasters := λ region i, 1%Z |}.

(** A region of two cells of capacity 1; the capacity factor of the first
    cell is 0.5, that of the second cell is missing. *)
Definition missing_ds : rasterized_ds :=
  {| n_cells := 2;
     n_timeSteps := 1;
     region_ids := ["R"];
     capacity := λ i, rat 1 1;
     capfac := λ i t, match i with 0 => rat 1 2 | _ => None end;
     rasters := λ region i, 1%Z |}.

(** A region of two cells with the capacities 1 and 3, observed at two
    time steps: the capacity factor of the first cell is missing at the
    first step, that of the second cell at both steps. *)
Definition unobserved_ds : rasterized_ds :=
  {| n_cells := 2;
     n_timeSteps := 2;
     region_ids := ["R"];
     capacity := λ i, match i with 0 => rat 1 1 | _ => rat 3 1 end;
     capfac := λ i t, match i, t with 0, 1 => rat 1 2 | _, _ => None end;
     rasters := λ region i, 1%Z |}.

(** The region of [fractional_ds] listed twice on the [region_ids] axis. *)
Definition repeated_ds : rasterized_ds :=
  {| n_cells := 2;
     n_timeSteps := 1;
     region_ids := ["R"; "R"];
     capacity := capacity fractional_ds;
     capfac := capfac fractional_ds;
     rasters := rasters fractional_ds |}.

(** A clustering that labels the rows in turn [0, 1, ..., K-1, 0, ...] and
    raises unless [0 < K <= number of rows]. *)
Definition fit_in_turn (K : Z) (X : list (list value)) : option (list nat) :=
  if decide (0 < K ≤ Z.of_nat (length X))%Z then
    Some ((λ i, i mod Z.to_nat K) <$> seq 0 (length X))
  else None.

(** A clustering that puts every row in cluster 0, whatever [K]. *)
Definition fit_single (K : Z) (X : list (list value)) : option (list nat) :=
  Some (replicate (length X) 0).

(** A clustering that gives every row a label of its own, whatever [K]. *)
Definition fit_apart (K : Z) (X : list (list value)) : option (list nat) :=
  Some (seq 0 (length X)).

(** Two datasets on the same grid and time axis that agree on the region:
    on its raster, on the capacity of its cells, and on the capacity factors
    of its cells of positive capacity. *)
Definition same_regional_data (ds ds' : rasterized_ds) (region : string) : Prop :=
  n_cells ds = n_cells ds'
  ∧ n_timeSteps ds = n_timeSteps ds'
  ∧ Forall (λ i,
      (rasters ds region i = 1%Z ↔ rasters ds' region i = 1%Z)
      ∧ (rasters ds region i = 1%Z →
         capacity ds i = capacity ds' i
         ∧ (gt0 (capacity ds i) →
            Forall (λ t, capfac ds i t = capfac ds' i t)
                   (seq 0 (n_timeSteps ds)))))
      (seq 0 (n_cells ds)).

Global Instance same_regional_data_dec ds ds' region :
  Decision (same_regional_data ds ds' region).
Proof. unfold same_regional_data. apply _. Defined.

(** The dataset with every capacity multiplied by [k] (a change of unit). *)
Definition scale_capacity (k : Qc) (ds : rasterized_ds) : rasterized_ds :=
  {| n_cells := n_cells ds;
     n_timeSteps := n_timeSteps ds;
     region_ids := region_ids ds;
     capacity := λ i, (λ c, k * c)%Qc <$> capacity ds i;
     capfac := capfac ds;
     rasters := rasters ds |}.


(** The fragment of the task of a region in cluster mode, for reading the
    merged dataset of an invocation that returned. *)
Definition clustered_fragment
    (fit : Z → list (list value) → option (list nat))
    (K : Z) (ds : rasterized_ds) (region : string) : cluster_fragment :=
  match _cluster_RE_technology fit K ds region with
  | Ok f => f
  | Raise _ => zeros_fragment 0 0
  end.

(** What the scheduler does with the tasks: gather, then merge. *)
Definition gather_and_merge {B} (task : string → result B)
    (inj : B → regional_data) (rs : list string)
    : result (gmap string regional_data) :=
  results ← mapM (λ region, f ← task region; Ok {[ region := inj f ]}) rs;
  xr_merge results.

(** * Properties *)

(** ** Sums *)

Lemma sumQ_app (l1 l2 : list Qc) : sumQ (l1 ++ l2) = (sumQ l1 + sumQ l2)%Qc.
Proof.
  induction l1 as [|x l1 IH]; simpl.
  - by rewrite Qcplus_0_l.
  - by rewrite IH, Qcplus_assoc.
Qed.

Lemma nansum_default (l : list value) : nansum l = sumQ (default 0%Qc <$> l).
Proof. induction l as [|v l IH]; simpl; [done|]. by rewrite IH. Qed.

Lemma sum_1d_sumQ (a : DataArray value) :
  sum_1d a = sumQ ((λ i, default 0%Qc (values a i)) <$> x_y a).
Proof. unfold sum_1d. rewrite nansum_default, <-list_fmap_compose. done. Qed.

Lemma sum_2d_sumQ (a : DataArray series) (t : nat) :
  sum_2d a t = sumQ ((λ i, default 0%Qc (values a i t)) <$> x_y a).
Proof. unfold sum_2d. rewrite nansum_default, <-list_fmap_compose. done. Qed.

Lemma sumQ_ext {A} (f g : A → Qc) (l : list A) :
  (∀ x, x ∈ l → f x = g x) → sumQ (f <$> l) = sumQ (g <$> l).
Proof.
  intros H. f_equal. apply list_fmap_ext. intros i x Hx. apply H.
  by eapply list_elem_of_lookup_2.
Qed.

(** ** The filtered arrays *)

Section filtering.
Context (ds : rasterized_ds) (region : string).

Lemma gt0_spec (v : value) : gt0 v ↔ ∃ c, v = Some c ∧ (0 < c)%Qc.
Proof.
  destruct v as [c|]; simpl.
  - rewrite bool_decide_spec. naive_solver.
  - naive_solver.
Qed.

Lemma in_region_spec (i : nat) :
  in_region ds region i = bool_decide (regional_cell ds region i).
Proof. done. Qed.

Lemma capacity_positive_spec (i : nat) :
  capacity_positive ds region i
  ↔ regional_cell ds region i ∧ positive_capacity ds i.
Proof.
  unfold capacity_positive, positive_capacity; simpl.
  rewrite in_region_spec. case_bool_decide; simpl; naive_solver.
Qed.

Lemma x_y_regional_capacity_da :
  x_y (regional_capacity_da ds region) = capacity_cells ds region.
Proof.
  unfold regional_capacity_da, capacity_cells, dropna_1d; simpl.
  apply list_filter_iff. intros i.
  rewrite <-capacity_positive_spec.
  destruct (capacity_positive ds region i) eqn:Hp; simpl; [|by split; intros []].
  split; [done|]. intros _.
  apply Is_true_true, capacity_positive_spec in Hp as [Hr Hp].
  rewrite in_region_spec, bool_decide_eq_true_2 by done.
  apply gt0_spec in Hp as (c & -> & _). by eexists.
Qed.

Lemma values_regional_capacity_da (i : nat) :
  i ∈ x_y (regional_capacity_da ds region) →
  values (regional_capacity_da ds region) i = capacity ds i.
Proof.
  rewrite x_y_regional_capacity_da. unfold capacity_cells.
  rewrite list_elem_of_filter, <-capacity_positive_spec. intros [Hp _].
  unfold regional_capacity_da, dropna_1d; simpl.
  apply Is_true_true in Hp as Hp'. rewrite Hp'.
  apply capacity_positive_spec in Hp as [Hr _].
  by rewrite in_region_spec, bool_decide_eq_true_2.
Qed.

(** The capacity-factor array keeps a cell when each of its time steps
    passes both masks and is present. *)
Lemma x_y_regional_capfac_da :
  x_y (regional_capfac_da ds region)
  = filter (λ i, Forall (λ t, regional_cell ds region i
                             ∧ positive_capacity ds i
                             ∧ is_Some (capfac ds i t))
                        (seq 0 (n_timeSteps ds)))
           (seq 0 (n_cells ds)).
Proof.
  unfold regional_capfac_da, dropna_2d; simpl.
  apply list_filter_iff. intros i. apply Forall_proper; [|done]. intros t.
  destruct (capacity_positive ds region i) eqn:Hp.
  - apply Is_true_true, capacity_positive_spec in Hp as [Hr Hp].
    rewrite in_region_spec, bool_decide_eq_true_2 by done. naive_solver.
  - split; [by intros []|]. intros (Hr & Hp' & _).
    apply Is_true_false in Hp. destruct Hp. by apply capacity_positive_spec.
Qed.

Lemma values_regional_capfac_da (i t : nat) :
  i ∈ x_y (regional_capfac_da ds region) → t < n_timeSteps ds →
  values (regional_capfac_da ds region) i t = capfac ds i t.
Proof.
  rewrite x_y_regional_capfac_da, list_elem_of_filter, Forall_forall.
  intros [H _] Ht. destruct (H t) as (Hr & Hp & _).
  { apply elem_of_seq. lia. }
  unfold regional_capfac_da, dropna_2d; simpl.
  assert (capacity_positive ds region i) as Hp'
    by by apply capacity_positive_spec.
  apply Is_true_true in Hp' as ->.
  by rewrite in_region_spec, bool_decide_eq_true_2.
Qed.

(** With at least one time step the surviving cells of the
    capacity-factor array are the filtered cells of the specification. *)
Lemma x_y_regional_capfac_da_filtered :
  0 < n_timeSteps ds →
  x_y (regional_capfac_da ds region) = filtered_cells ds region.
Proof.
  intros HT. rewrite x_y_regional_capfac_da. unfold filtered_cells.
  apply list_filter_iff. intros i. unfold complete_capfac.
  rewrite !Forall_forall. split.
  - intros H. destruct (H 0) as (Hr & Hp & _); [apply elem_of_seq; lia|].
    repeat split; [done..|]. intros t Ht. by apply H.
  - intros (Hr & Hp & H) t Ht. auto.
Qed.

(** Without time steps no cell is dropped from the capacity-factor
    array. *)
Lemma x_y_regional_capfac_da_no_time :
  n_timeSteps ds = 0 →
  x_y (regional_capfac_da ds region) = seq 0 (n_cells ds).
Proof.
  intros HT. rewrite x_y_regional_capfac_da, HT. simpl.
  induction (seq 0 (n_cells ds)) as [|x l IH]; [done|].
  rewrite filter_cons_True by constructor. by rewrite IH.
Qed.

Lemma filtered_cells_capacity_cells :
  filtered_cells ds region
  = filter (complete_capfac ds) (capacity_cells ds region).
Proof.
  unfold filtered_cells, capacity_cells. rewrite list_filter_filter.
  apply list_filter_iff. naive_solver.
Qed.

Lemma x_y_regional_power_da :
  x_y (regional_power_da ds region)
  = filter (λ i, i ∈ x_y (regional_capfac_da ds region))
           (capacity_cells ds region).
Proof.
  change (x_y (regional_power_da ds region))
    with (filter (λ i, i ∈ x_y (regional_capfac_da ds region))
                 (x_y (regional_capacity_da ds region))).
  by rewrite x_y_regional_capacity_da.
Qed.
End filtering.

(** ** Sums of finite values *)

Section positive_sums.
Local Open Scope Qc_scope.

Lemma sumQ_pos {A} (g : A → Qc) (l : list A) :
  l ≠ [] → (∀ x, x ∈ l → 0 < g x) → 0 < sumQ (g <$> l).
Proof.
  induction l as [|x l IH]; [done|]. intros _ Hg.
  rewrite fmap_cons. unfold sumQ in *. cbn [foldr].
  destruct l as [|y l].
  - simpl. rewrite Qcplus_0_r. apply Hg. by left.
  - apply Qcplus_pos_pos.
    + apply Hg. by left.
    + apply IH; [done|]. intros z Hz. apply Hg. by right.
Qed.

Lemma fsum_Fin {A} (g : A → Qc) (l : list A) :
  fsum ((λ x, Fin (g x)) <$> l) = Fin (sumQ (g <$> l)).
Proof.
  induction l as [|x l IH]; [done|].
  rewrite !fmap_cons. unfold fsum, sumQ in *. cbn [foldr].
  by rewrite IH.
Qed.

Lemma fmul_fdiv (p c : Qc) : c ≠ 0 → fmul (Fin c) (fdiv p c) = Fin p.
Proof.
  intros Hc. unfold fdiv. rewrite decide_False by done. simpl.
  f_equal. field. done.
Qed.
End positive_sums.

(** ** Lockstep of the two filtered arrays *)

Lemma filter_same_length {A} (P : A → Prop) `{∀ x, Decision (P x)} (l : list A) :
  length (filter P l) = length l → filter P l = l.
Proof.
  induction l as [|x l IH]; [done|].
  rewrite filter_cons. destruct (decide (P x)); simpl.
  - intros [= Hl]. by rewrite IH.
  - intros Hl. pose proof (length_filter P l). lia.
Qed.

Lemma filter_all {A} (P : A → Prop) `{∀ x, Decision (P x)} (l : list A) :
  Forall P l → filter P l = l.
Proof.
  induction 1 as [|x l Hx _ IH]; [done|].
  by rewrite filter_cons_True, IH.
Qed.

Lemma filter_ext_in {A} (P Q : A → Prop)
    `{∀ x, Decision (P x)} `{∀ x, Decision (Q x)} (l : list A) :
  (∀ x, x ∈ l → P x ↔ Q x) → filter P l = filter Q l.
Proof.
  induction l as [|x l IH]; [done|]. intros HPQ.
  rewrite !filter_cons, IH by (intros; apply HPQ; by right).
  destruct (decide (P x)) as [HP|HP], (decide (Q x)) as [HQ|HQ]; try done.
  - destruct HQ. apply HPQ; [by left|done].
  - destruct HP. apply HPQ; [by left|done].
Qed.

Section lockstep.
Context (ds : rasterized_ds) (region : string).

Lemma complete_capfac_no_time (i : nat) :
  n_timeSteps ds = 0 → complete_capfac ds i.
Proof. unfold complete_capfac. intros ->. constructor. Qed.

Lemma lockstep_of_length :
  length (x_y (regional_capacity_da ds region))
  = length (x_y (regional_capfac_da ds region)) →
  lockstep ds region.
Proof.
  unfold lockstep. rewrite x_y_regional_capacity_da.
  destruct (decide (n_timeSteps ds = 0)) as [HT|HT].
  - rewrite x_y_regional_capfac_da_no_time by done.
    unfold capacity_cells. apply filter_same_length.
  - rewrite x_y_regional_capfac_da_filtered by lia.
    rewrite filtered_cells_capacity_cells. intros Hl. symmetry.
    by apply filter_same_length.
Qed.

Lemma lockstep_filtered :
  lockstep ds region →
  x_y (regional_capacity_da ds region) = filtered_cells ds region.
Proof.
  unfold lockstep. intros Hl.
  destruct (decide (n_timeSteps ds = 0)) as [HT|HT].
  - rewrite x_y_regional_capacity_da, filtered_cells_capacity_cells.
    symmetry. apply filter_all, Forall_forall. intros i _.
    by apply complete_capfac_no_time.
  - by rewrite Hl, x_y_regional_capfac_da_filtered by lia.
Qed.

Lemma lockstep_power :
  lockstep ds region →
  x_y (regional_power_da ds region) = filtered_cells ds region.
Proof.
  intros Hl. rewrite x_y_regional_power_da, <-x_y_regional_capacity_da.
  rewrite <-Hl, <-(lockstep_filtered Hl).
  apply filter_all, Forall_forall. auto.
Qed.

(** The power array carries the cells present in both arrays. *)
Lemma x_y_regional_power_da_filtered :
  0 < n_timeSteps ds →
  x_y (regional_power_da ds region) = filtered_cells ds region.
Proof.
  intros HT. rewrite x_y_regional_power_da.
  rewrite x_y_regional_capfac_da_filtered by done.
  rewrite filtered_cells_capacity_cells.
  apply filter_ext_in. intros i Hi. rewrite list_elem_of_filter. naive_solver.
Qed.

Lemma capacity_cells_value (i : nat) :
  i ∈ capacity_cells ds region →
  ∃ c, capacity ds i = Some c ∧ (0 < c)%Qc.
Proof.
  unfold capacity_cells. rewrite list_elem_of_filter.
  intros [[_ Hp] _]. by apply gt0_spec.
Qed.

Lemma filtered_cells_capacity (i : nat) :
  i ∈ filtered_cells ds region → i ∈ capacity_cells ds region.
Proof.
  rewrite filtered_cells_capacity_cells, list_elem_of_filter. by intros [_ ?].
Qed.

Lemma filtered_cells_capfac (i t : nat) :
  i ∈ filtered_cells ds region → t < n_timeSteps ds →
  is_Some (capfac ds i t).
Proof.
  unfold filtered_cells. rewrite list_elem_of_filter.
  intros [(_ & _ & Hc) _] Ht. unfold complete_capfac in Hc.
  rewrite Forall_forall in Hc. apply Hc, elem_of_seq. lia.
Qed.

(** The sums computed by the code, in terms of the cells of the grid. *)
Lemma sum_regional_capacity_da :
  sum_1d (regional_capacity_da ds region)
  = sumQ (cell_capacity ds <$> capacity_cells ds region).
Proof.
  rewrite sum_1d_sumQ, <-x_y_regional_capacity_da.
  apply sumQ_ext. intros i Hi. unfold cell_capacity.
  by rewrite values_regional_capacity_da.
Qed.

Lemma values_regional_power_da (i t : nat) :
  i ∈ x_y (regional_power_da ds region) → t < n_timeSteps ds →
  default 0%Qc (values (regional_power_da ds region) i t)
  = (cell_capacity ds i * cell_capfac ds i t)%Qc.
Proof.
  intros Hi Ht.
  assert (0 < n_timeSteps ds) as HT by lia.
  assert (i ∈ x_y (regional_capacity_da ds region)
          ∧ i ∈ x_y (regional_capfac_da ds region)) as [Hc Hf].
  { unfold regional_power_da, mul_da in Hi. simpl in Hi.
    apply list_elem_of_filter in Hi. naive_solver. }
  change (values (regional_power_da ds region) i t)
    with (vmul (values (regional_capacity_da ds region) i)
               (values (regional_capfac_da ds region) i t)).
  rewrite values_regional_capacity_da, values_regional_capfac_da by done.
  rewrite x_y_regional_capacity_da in Hc.
  rewrite x_y_regional_capfac_da_filtered in Hf by done.
  destruct (capacity_cells_value _ Hc) as (c & Hc' & _).
  destruct (filtered_cells_capfac _ _ Hf Ht) as [f Hf'].
  unfold cell_capacity, cell_capfac. by rewrite Hc', Hf'.
Qed.

Lemma sum_regional_power_da (t : nat) :
  t < n_timeSteps ds →
  sum_2d (regional_power_da ds region) t
  = sumQ ((λ i, cell_capacity ds i * cell_capfac ds i t)%Qc
            <$> filtered_cells ds region).
Proof.
  intros Ht. rewrite sum_2d_sumQ.
  rewrite <-x_y_regional_power_da_filtered by lia.
  apply sumQ_ext. intros i Hi. by apply values_regional_power_da.
Qed.
End lockstep.

(** ** The simple aggregator, in closed form *)

(** For every dataset and region the simple aggregator returns the total
    capacity of the cells of the filtered capacity array, cast to an
    integer, and at each time step the power of the cells present in both
    filtered arrays divided by that total capacity. *)
Lemma simple_aggregate_closed_form (ds : rasterized_ds) (region : string) :
  _simply_aggregate_RE_technology ds region
  = {| represented_capacity :=
         astype_int64 (sumQ (cell_capacity ds <$> capacity_cells ds region));
       represented_timeSeries :=
         (λ t, fdiv (sumQ ((λ i, cell_capacity ds i * cell_capfac ds i t)%Qc
                             <$> filtered_cells ds region))
                    (sumQ (cell_capacity ds <$> capacity_cells ds region)))
           <$> seq 0 (n_timeSteps ds) |}.
Proof.
  unfold _simply_aggregate_RE_technology.
  rewrite sum_regional_capacity_da. f_equal.
  apply list_fmap_ext. intros k t Ht.
  apply lookup_seq in Ht as [-> Ht]. simpl.
  by rewrite sum_regional_power_da.
Qed.

(** ** The simple aggregator on a region without positive capacity *)

(** When no cell of the region passes the capacity filter, the total
    capacity is 0 and the time series is NaN at every time step. *)
Lemma simple_aggregate_empty_region (ds : rasterized_ds) (region : string) :
  x_y (regional_capacity_da ds region) = [] →
  _simply_aggregate_RE_technology ds region
  = {| represented_capacity := 0;
       represented_timeSeries := replicate (n_timeSteps ds) NaN |}.
Proof.
  rewrite x_y_regional_capacity_da. intros Hempty.
  rewrite simple_aggregate_closed_form.
  rewrite filtered_cells_capacity_cells, Hempty. simpl. f_equal.
  generalize 0 at 1. induction (n_timeSteps ds) as [|T IH]; intros j; [done|].
  simpl. by rewrite IH.
Qed.

(** The total capacity is 0 exactly when the filtered capacity array is
    empty. *)
Lemma total_capacity_zero_iff (ds : rasterized_ds) (region : string) :
  sum_1d (regional_capacity_da ds region) = 0%Qc
  ↔ x_y (regional_capacity_da ds region) = [].
Proof.
  rewrite sum_regional_capacity_da, x_y_regional_capacity_da. split.
  - intros Hz. destruct (capacity_cells ds region) as [|i l] eqn:Hcells;
      [done|].
    assert (0 < sumQ (cell_capacity ds <$> capacity_cells ds region))%Qc
      as Hpos.
    { apply sumQ_pos; [by rewrite Hcells|]. intros j Hj.
      apply capacity_cells_value in Hj as (c & Hc & Hpos).
      unfold cell_capacity. by rewrite Hc. }
    rewrite Hcells, Hz in Hpos. by apply (irreflexivity Qclt) in Hpos.
  - by intros ->.
Qed.

(** ** What holds with the filtered arrays in lockstep *)

Section weighted_mean.
Local Open Scope Qc_scope.

Lemma sumQ_weighted_bounds {A} (c f : A → Qc) (lo hi : Qc) (l : list A) :
  (∀ x, x ∈ l → 0 ≤ c x ∧ lo ≤ f x ≤ hi) →
  lo * sumQ (c <$> l) ≤ sumQ ((λ x, c x * f x) <$> l)
  ∧ sumQ ((λ x, c x * f x) <$> l) ≤ hi * sumQ (c <$> l).
Proof.
  induction l as [|x l IH]; intros Hl.
  - simpl. rewrite !Qcmult_0_r. split; apply Qcle_refl.
  - destruct IH as [IHlo IHhi]; [intros y Hy; apply Hl; by right|].
    destruct (Hl x) as (Hc & Hlo & Hhi); [by left|].
    rewrite !fmap_cons. unfold sumQ in *. cbn [foldr].
    rewrite !Qcmult_plus_distr_r. split; apply Qcplus_le_compat; try done.
    + rewrite (Qcmult_comm (c x)). by apply Qcmult_le_compat_r.
    + rewrite (Qcmult_comm (c x)). by apply Qcmult_le_compat_r.
Qed.

Lemma Qcdiv_bounds (p c lo hi : Qc) :
  0 < c → lo * c ≤ p → p ≤ hi * c → lo ≤ p / c ≤ hi.
Proof.
  intros Hc Hlo Hhi.
  assert (p / c * c = p) as Hp.
  { field. intros Hz. rewrite Hz in Hc. by apply (irreflexivity Qclt) in Hc. }
  split; apply (Qcmult_lt_0_le_reg_r _ _ c Hc); by rewrite Hp.
Qed.
End weighted_mean.

Section simple_lockstep.
Context (ds : rasterized_ds) (region : string).
Hypothesis Hlock : lockstep ds region.
Hypothesis Hne : filtered_cells ds region ≠ [].

Lemma lockstep_capacity_cells :
  capacity_cells ds region = filtered_cells ds region.
Proof. rewrite <-x_y_regional_capacity_da. by apply lockstep_filtered. Qed.

Lemma total_capacity_pos :
  (0 < sumQ (cell_capacity ds <$> filtered_cells ds region))%Qc.
Proof.
  apply sumQ_pos; [done|]. intros i Hi.
  apply filtered_cells_capacity, capacity_cells_value in Hi
    as (c & Hc & Hpos).
  unfold cell_capacity. by rewrite Hc.
Qed.

(** With the arrays in lockstep the series of the simple aggregator is the
    capacity-weighted mean of the capacity factors of the filtered cells,
    and the capacity is the total capacity cast to an integer. *)
Lemma simple_weighted_mean :
  _simply_aggregate_RE_technology ds region
  = {| represented_capacity :=
         astype_int64 (sumQ (cell_capacity ds <$> filtered_cells ds region));
       represented_timeSeries :=
         (λ t, Fin (sumQ ((λ i, cell_capacity ds i * cell_capfac ds i t)
                            <$> filtered_cells ds region)
                    / sumQ (cell_capacity ds <$> filtered_cells ds region))%Qc)
           <$> seq 0 (n_timeSteps ds) |}.
Proof.
  rewrite simple_aggregate_closed_form, lockstep_capacity_cells. f_equal.
  apply list_fmap_ext. intros _ t _. unfold fdiv.
  rewrite decide_False; [done|].
  pose proof total_capacity_pos as Hpos. intros Hz. rewrite Hz in Hpos.
  by apply (irreflexivity Qclt) in Hpos.
Qed.

(** The weighted mean lies between any bounds of the capacity factors of
    the filtered cells at that time step. *)
Lemma simple_capfac_bounds (t : nat) (lo hi : Qc) :
  t < n_timeSteps ds →
  (∀ i, i ∈ filtered_cells ds region →
        (lo ≤ cell_capfac ds i t ≤ hi)%Qc) →
  ∃ v, represented_timeSeries (_simply_aggregate_RE_technology ds region) !! t
       = Some (Fin v)
       ∧ (lo ≤ v ≤ hi)%Qc.
Proof.
  intros Ht Hf. rewrite simple_weighted_mean. simpl.
  rewrite list_lookup_fmap, lookup_seq_lt by done. simpl.
  eexists. split; [done|].
  destruct (sumQ_weighted_bounds (cell_capacity ds)
              (λ i, cell_capfac ds i t) lo hi (filtered_cells ds region))
    as [Hlo Hhi].
  { intros i Hi. split; [|by apply Hf].
    apply filtered_cells_capacity, capacity_cells_value in Hi
      as (c & Hc & Hpos).
    unfold cell_capacity. rewrite Hc. by apply Qclt_le_weak. }
  apply Qcdiv_bounds; [apply total_capacity_pos|done..].
Qed.
End simple_lockstep.

(** ** Selection by cluster label *)

Section select.
Local Open Scope Qc_scope.
Context {A : Type}.

Lemma elem_of_select (mask : list bool) (l : list A) (x : A) :
  x ∈ select mask l → x ∈ l.
Proof.
  revert l. induction mask as [|b mask IH]; intros [|y l]; simpl;
    try by rewrite ?elem_of_nil.
  destruct b; rewrite ?elem_of_cons; naive_solver.
Qed.

Lemma sumQ_fmap_plus {B} (f g : B → Qc) (l : list B) :
  sumQ ((λ x, f x + g x) <$> l) = sumQ (f <$> l) + sumQ (g <$> l).
Proof.
  induction l as [|x l IH]; [simpl; ring|].
  rewrite !fmap_cons. unfold sumQ in *. cbn [foldr]. rewrite IH. ring.
Qed.

Lemma sumQ_zero {B} (l : list B) : sumQ ((λ _, 0) <$> l) = 0.
Proof.
  induction l as [|x l IH]; [done|].
  rewrite fmap_cons. unfold sumQ in *. cbn [foldr]. rewrite IH. ring.
Qed.

Lemma sumQ_indicator (a : nat) (v : Qc) (j n : nat) :
  sumQ ((λ i, if bool_decide (a = i) then v else 0) <$> seq j n)
  = if bool_decide (j ≤ a < j + n)%nat then v else 0.
Proof.
  revert j. induction n as [|n IH]; intros j; simpl.
  - rewrite bool_decide_eq_false_2 by lia. done.
  - rewrite IH. repeat case_bool_decide; try lia; ring.
Qed.

Lemma select_cluster_cons (a : nat) (labels : list nat) (x : A) (l : list A)
    (i : nat) :
  select (cluster_mask (a :: labels) i) (x :: l)
  = if bool_decide (a = i) then x :: select (cluster_mask labels i) l
    else select (cluster_mask labels i) l.
Proof. done. Qed.

(** Every cell carries one label below [n]: the clusters partition the
    cells. *)
Lemma select_partition_sum (g : A → Qc) (labels : list nat) (l : list A)
    (n : nat) :
  length labels = length l →
  Forall (λ k, k < n)%nat labels →
  sumQ ((λ i, sumQ (g <$> select (cluster_mask labels i) l)) <$> seq 0 n)
  = sumQ (g <$> l).
Proof.
  revert l. induction labels as [|a labels IH]; intros [|x l] Hlen Hlt;
    try discriminate.
  - apply sumQ_zero.
  - apply Forall_cons in Hlt as [Ha Hlt]. injection Hlen as Hlen.
    rewrite (list_fmap_ext _
      (λ i, (if bool_decide (a = i) then g x else 0)
            + sumQ (g <$> select (cluster_mask labels i) l))).
    2:{ intros _ i _. rewrite select_cluster_cons.
        case_bool_decide; [done|]. by rewrite Qcplus_0_l. }
    rewrite (sumQ_fmap_plus (λ i, if bool_decide (a = i) then g x else 0)
               (λ i, sumQ (g <$> select (cluster_mask labels i) l))).
    rewrite sumQ_indicator, (IH l) by done.
    by rewrite bool_decide_eq_true_2 by lia.
Qed.

Lemma select_cluster_nonempty (labels : list nat) (l : list A) (k : nat) :
  length labels = length l → k ∈ labels →
  select (cluster_mask labels k) l ≠ [].
Proof.
  revert l. induction labels as [|a labels IH]; intros [|x l] Hlen Hk;
    try discriminate.
  - by apply elem_of_nil in Hk.
  - injection Hlen as Hlen. rewrite select_cluster_cons. case_bool_decide as Ha; [done|].
    apply elem_of_cons in Hk as [->|Hk]; [done|]. by apply IH.
Qed.
End select.

(** A list of [n] distinct labels below [n] holds every label below [n]. *)
Lemma labels_cover (labels : list nat) (n k : nat) :
  Forall (λ l, l < n) labels →
  length (remove_dups labels) = n →
  k < n → k ∈ labels.
Proof.
  intros Hlt Hn Hk. apply elem_of_remove_dups, list_elem_of_In.
  apply (NoDup_length_incl (l := remove_dups labels) (l' := seq 0 n)).
  - apply NoDup_ListNoDup, NoDup_remove_dups.
  - by rewrite length_seq, Hn.
  - intros x Hx. apply list_elem_of_In in Hx. apply list_elem_of_In.
    apply elem_of_seq. rewrite Forall_forall in Hlt.
    apply elem_of_remove_dups, Hlt in Hx. lia.
  - apply list_elem_of_In, elem_of_seq. lia.
Qed.

(** ** The aggregation loop *)

Lemma for_each_app {State : Type} (body : nat → State → result State)
    (l1 l2 : list nat) (st : State) :
  for_each body (l1 ++ l2) st
  = st' ← for_each body l1 st; for_each body l2 st'.
Proof.
  revert st. induction l1 as [|i l1 IH]; intros st; simpl; [done|].
  destruct (body i st) as [st'|e]; simpl; [apply IH|done].
Qed.

Lemma length_TS_ids (K : Z) : length (TS_ids K) = Z.to_nat K.
Proof. unfold TS_ids. by rewrite length_fmap, length_seq. Qed.

Lemma TS_ids_lookup (K : Z) (i : nat) :
  is_Some (TS_ids K !! i) ↔ i < Z.to_nat K.
Proof. by rewrite lookup_lt_is_Some, length_TS_ids. Qed.

Lemma boolean_index_Ok {A} (a : DataArray A) (mask : list bool) :
  length mask = length (x_y a) →
  boolean_index a mask = Ok (mkDA (select mask (x_y a)) (values a)).
Proof. intros Hl. unfold boolean_index. by rewrite decide_True. Qed.

Section loop.
Context (K : Z) (ds : rasterized_ds) (region : string) (labels : list nat).

(** What one iteration needs in order not to raise. *)
Lemma aggregate_cluster_Ok_inv (i : nat) (st st' : cluster_fragment) :
  aggregate_cluster K ds region labels i st = Ok st' →
  length labels = length (x_y (regional_capacity_da ds region))
  ∧ i < Z.to_nat K.
Proof.
  unfold aggregate_cluster, boolean_index.
  destruct (decide (length (cluster_mask labels i)
                    = length (x_y (regional_capacity_da ds region))))
    as [Hl|]; [|done]. simpl.
  destruct (TS_ids K !! i) eqn:Hi; [|done]. intros _.
  unfold cluster_mask in Hl. rewrite length_fmap in Hl.
  split; [done|]. apply TS_ids_lookup. by eexists.
Qed.

Hypothesis Hlock : lockstep ds region.
Hypothesis Hlabels : length labels = length (filtered_cells ds region).

Lemma sum_cluster_capacity_da (i : nat) :
  sum_1d (mkDA (select (cluster_mask labels i)
                       (x_y (regional_capacity_da ds region)))
               (values (regional_capacity_da ds region)))
  = cluster_capacity ds region labels i.
Proof.
  rewrite sum_1d_sumQ. cbn [x_y values].
  unfold cluster_capacity, cluster_cells.
  rewrite <-(lockstep_filtered _ _ Hlock).
  apply sumQ_ext. intros j Hj. unfold cell_capacity.
  rewrite values_regional_capacity_da; [done|].
  by eapply elem_of_select.
Qed.

Lemma sum_cluster_power_da (i t : nat) :
  t < n_timeSteps ds →
  sum_2d (mkDA (select (cluster_mask labels i)
                       (x_y (regional_power_da ds region)))
               (values (regional_power_da ds region))) t
  = cluster_power ds region labels i t.
Proof.
  intros Ht. rewrite sum_2d_sumQ. cbn [x_y values].
  unfold cluster_power, cluster_cells.
  rewrite <-(lockstep_power _ _ Hlock).
  apply sumQ_ext. intros j Hj.
  apply values_regional_power_da; [|done]. by eapply elem_of_select.
Qed.

Lemma aggregate_cluster_Ok (i : nat) (st : cluster_fragment) :
  i < Z.to_nat K →
  aggregate_cluster K ds region labels i st
  = Ok {| represented_capacities :=
            <[i := cluster_capacity ds region labels i]>
              (represented_capacities st);
          represented_timeSeries_perTS :=
            <[i := cluster_capfac ds region labels i]>
              (represented_timeSeries_perTS st) |}.
Proof.
  intros Hi. unfold aggregate_cluster.
  assert (length (cluster_mask labels i) = length labels) as Hm
    by (unfold cluster_mask; by rewrite length_fmap).
  rewrite (boolean_index_Ok (regional_capacity_da ds region))
    by (by rewrite Hm, Hlabels, (lockstep_filtered _ _ Hlock)).
  rewrite (boolean_index_Ok (regional_power_da ds region))
    by (by rewrite Hm, Hlabels, (lockstep_power _ _ Hlock)).
  destruct (proj2 (TS_ids_lookup K i) Hi) as [ts ->].
  unfold mbind, result_bind. cbv beta iota zeta.
  rewrite sum_cluster_capacity_da. do 3 f_equal.
  apply list_fmap_ext. intros k t Ht.
  apply lookup_seq in Ht as [-> Ht]. cbn [Nat.add].
  by rewrite sum_cluster_power_da.
Qed.

(** After [m] iterations the first [m] entries are written, the others
    still hold the zeros of the allocation. *)
Lemma for_each_aggregate_cluster (m : nat) :
  m ≤ Z.to_nat K →
  for_each (aggregate_cluster K ds region labels) (seq 0 m)
    {| represented_capacities := replicate (Z.to_nat K) 0%Qc;
       represented_timeSeries_perTS :=
         replicate (Z.to_nat K) (replicate (n_timeSteps ds) (Fin 0%Qc)) |}
  = Ok {| represented_capacities :=
            (cluster_capacity ds region labels <$> seq 0 m)
            ++ replicate (Z.to_nat K - m) 0%Qc;
          represented_timeSeries_perTS :=
            (cluster_capfac ds region labels <$> seq 0 m)
            ++ replicate (Z.to_nat K - m)
                 (replicate (n_timeSteps ds) (Fin 0%Qc)) |}.
Proof.
  induction m as [|m IH]; intros Hm.
  - simpl. by rewrite Nat.sub_0_r.
  - rewrite seq_S, for_each_app, IH by lia. simpl.
    rewrite aggregate_cluster_Ok by lia. simpl.
    replace (Z.to_nat K - m) with (S (Z.to_nat K - S m)) by lia.
    rewrite !fmap_app. simpl.
    do 2 f_equal.
    + rewrite <-(Nat.add_0_r m) at 1.
      replace m with (length (cluster_capacity ds region labels <$> seq 0 m))
        at 1 by (by rewrite length_fmap, length_seq).
      rewrite insert_app_r. simpl. by rewrite <-app_assoc.
    + rewrite <-(Nat.add_0_r m) at 1.
      replace m with (length (cluster_capfac ds region labels <$> seq 0 m))
        at 1 by (by rewrite length_fmap, length_seq).
      rewrite insert_app_r. simpl. by rewrite <-app_assoc.
Qed.
End loop.

(** ** The cluster aggregator, in closed form *)

Section cluster_closed_form.
Context (fit : Z → list (list value) → option (list nat)).
Context (K : nat) (ds : rasterized_ds) (region : string).
Context (labels : list nat).
Hypothesis Hfit :
  fit (Z.of_nat K)
      (samples (n_timeSteps ds) (regional_capfac_da ds region))
  = Some labels.

Lemma cluster_run_unfold :
  _cluster_RE_technology fit (Z.of_nat K) ds region
  = for_each (aggregate_cluster (Z.of_nat K) ds region labels)
      (seq 0 (length (remove_dups labels)))
      (zeros_fragment K (n_timeSteps ds)).
Proof.
  unfold _cluster_RE_technology. rewrite decide_False by lia.
  cbv zeta. by rewrite Hfit, Nat2Z.id.
Qed.

(** With the two arrays in lockstep and one label per cell the aggregator
    returns; the entries beyond the number of distinct labels keep the
    zeros of the allocation. *)
Lemma cluster_closed_form :
  lockstep ds region →
  length labels = length (filtered_cells ds region) →
  length (remove_dups labels) ≤ K →
  _cluster_RE_technology fit (Z.of_nat K) ds region
  = Ok {| represented_capacities :=
            (cluster_capacity ds region labels
               <$> seq 0 (length (remove_dups labels)))
            ++ replicate (K - length (remove_dups labels)) 0%Qc;
          represented_timeSeries_perTS :=
            (cluster_capfac ds region labels
               <$> seq 0 (length (remove_dups labels)))
            ++ replicate (K - length (remove_dups labels))
                 (replicate (n_timeSteps ds) (Fin 0%Qc)) |}.
Proof.
  intros Hlock Hlen Hm. rewrite cluster_run_unfold. unfold zeros_fragment.
  pose proof (for_each_aggregate_cluster (Z.of_nat K) ds region labels
                Hlock Hlen (length (remove_dups labels))) as Hloop.
  rewrite Nat2Z.id in Hloop. by apply Hloop.
Qed.

(** When the aggregator returns for a non-empty labelling of the
    surviving cells, the two filtered arrays were in lockstep. *)
Lemma cluster_Ok_lockstep (frag : cluster_fragment) :
  _cluster_RE_technology fit (Z.of_nat K) ds region = Ok frag →
  length labels = n_ts ds region →
  labels ≠ [] →
  lockstep ds region.
Proof.
  rewrite cluster_run_unfold. intros Hrun Hlen Hne.
  destruct (remove_dups labels) as [|l ls] eqn:Hd.
  { destruct labels as [|l labels']; [done|].
    assert (l ∈ remove_dups (l :: labels')) as Hl
      by (apply elem_of_remove_dups; by left).
    rewrite Hd in Hl. by apply elem_of_nil in Hl. }
  simpl in Hrun.
  destruct (aggregate_cluster (Z.of_nat K) ds region labels 0
              (zeros_fragment K (n_timeSteps ds))) as [st'|e] eqn:Hstep;
    [|done].
  apply aggregate_cluster_Ok_inv in Hstep as [Hcap _].
  apply lockstep_of_length. by rewrite <-Hcap, Hlen.
Qed.
End cluster_closed_form.

Lemma filtered_cells_surviving (ds : rasterized_ds) (region : string) (i : nat) :
  i ∈ filtered_cells ds region → i ∈ x_y (regional_capfac_da ds region).
Proof.
  rewrite x_y_regional_capfac_da. unfold filtered_cells.
  rewrite !list_elem_of_filter. intros [(Hr & Hp & Hc) Hi]. split; [|done].
  unfold complete_capfac in Hc. rewrite Forall_forall in Hc.
  apply Forall_forall. intros t Ht. auto.
Qed.

Lemma lockstep_n_ts (ds : rasterized_ds) (region : string) :
  lockstep ds region →
  n_ts ds region = length (filtered_cells ds region).
Proof.
  intros Hlock. unfold n_ts. by rewrite <-Hlock, (lockstep_filtered _ _ Hlock).
Qed.

Section cluster_result.
Context (fit : Z → list (list value) → option (list nat)).
Context (K : nat) (ds : rasterized_ds) (region : string).
Context (labels : list nat).
Hypothesis Hfit :
  fit (Z.of_nat K)
      (samples (n_timeSteps ds) (regional_capfac_da ds region))
  = Some labels.
Hypothesis Hclusters : K_clusters K (n_ts ds region) labels.

(** The aggregator returns when the two filtered arrays are in lockstep. *)
Lemma cluster_returns :
  lockstep ds region →
  _cluster_RE_technology fit (Z.of_nat K) ds region
  = Ok {| represented_capacities :=
            cluster_capacity ds region labels <$> seq 0 K;
          represented_timeSeries_perTS :=
            cluster_capfac ds region labels <$> seq 0 K |}.
Proof.
  destruct Hclusters as (Hlen & Hlt & HK). intros Hlock.
  rewrite (cluster_closed_form fit K ds region labels Hfit Hlock);
    [|by rewrite Hlen, lockstep_n_ts|lia].
  by rewrite HK, Nat.sub_diag, !app_nil_r.
Qed.

(** Whenever the aggregator returns, its result is the per-cluster
    aggregation of the filtered cells. *)
Lemma cluster_result (frag : cluster_fragment) :
  _cluster_RE_technology fit (Z.of_nat K) ds region = Ok frag →
  length labels = length (filtered_cells ds region)
  ∧ frag = {| represented_capacities :=
                cluster_capacity ds region labels <$> seq 0 K;
              represented_timeSeries_perTS :=
                cluster_capfac ds region labels <$> seq 0 K |}.
Proof.
  intros Hrun. pose proof Hclusters as (Hlen & Hlt & HK).
  destruct (decide (labels = [])) as [Hnil|Hne].
  - rewrite (cluster_run_unfold fit K ds region labels Hfit) in Hrun.
    rewrite Hnil in Hrun, HK, Hlen. simpl in Hrun, HK.
    injection Hrun as <-. rewrite <-HK, Hnil. split; [|done].
    destruct (filtered_cells ds region) as [|i cells] eqn:Hcells; [done|].
    assert (i ∈ x_y (regional_capfac_da ds region)) as Hi.
    { apply filtered_cells_surviving. rewrite Hcells. by left. }
    unfold n_ts in Hlen.
    destruct (x_y (regional_capfac_da ds region)); [|done].
    by apply elem_of_nil in Hi.
  - assert (lockstep ds region) as Hlock
      by by eapply cluster_Ok_lockstep.
    rewrite cluster_returns in Hrun by done. injection Hrun as <-.
    split; [|done]. by rewrite Hlen, lockstep_n_ts.
Qed.
End cluster_result.

(** ** Conservation in cluster mode *)

(** C2. Capacity conservation in cluster mode: when the clustering returns
    one label in [0, K) per surviving cell, [K] of them distinct, the
    aggregator returns if the two filtered arrays are in lockstep, and
    whenever it returns the [K] output capacities sum to the total capacity
    of the filtered cells of the region. *)
Theorem cluster_capacity_conservation
    (fit : Z → list (list value) → option (list nat))
    (K : nat) (ds : rasterized_ds) (region : string) (labels : list nat) :
  fit (Z.of_nat K) (samples (n_timeSteps ds) (regional_capfac_da ds region))
  = Some labels →
  K_clusters K (n_ts ds region) labels →
  (lockstep ds region →
   ∃ frag, _cluster_RE_technology fit (Z.of_nat K) ds region = Ok frag)
  ∧ ∀ frag,
      _cluster_RE_technology fit (Z.of_nat K) ds region = Ok frag →
      sumQ (TS_capacity frag <$> seq 0 K)
      = sumQ (cell_capacity ds <$> filtered_cells ds region).
Proof.
  intros Hfit Hclusters. split.
  - intros Hlock. eexists. by apply cluster_returns.
  - intros frag Hrun.
    destruct (cluster_result fit K ds region labels Hfit Hclusters frag Hrun)
      as [Hlen ->].
    destruct Hclusters as (_ & Hlt & _).
    rewrite <-(select_partition_sum (cell_capacity ds) labels
                 (filtered_cells ds region) K) by done.
    f_equal. apply list_fmap_ext. intros i k Hk.
    apply lookup_seq in Hk as [-> Hk]. unfold TS_capacity. simpl.
    by rewrite list_lookup_fmap, lookup_seq_lt.
Qed.



Lemma cluster_capacity_pos (ds : rasterized_ds) (region : string)
    (labels : list nat) (k : nat) :
  length labels = length (filtered_cells ds region) →
  k ∈ labels →
  (0 < cluster_capacity ds region labels k)%Qc.
Proof.
  intros Hlen Hk. unfold cluster_capacity. apply sumQ_pos.
  - by apply select_cluster_nonempty.
  - intros i Hi. apply elem_of_select, filtered_cells_capacity in Hi.
    apply capacity_cells_value in Hi as (c & Hc & Hpos).
    unfold cell_capacity. by rewrite Hc.
Qed.

(** C3. Power conservation in cluster mode: under the same conditions on
    the labels, at every time step the sum over the [K] clusters of output
    capacity times output capacity factor is the total power of the
    filtered cells of the region. *)
Theorem cluster_power_conservation
    (fit : Z → list (list value) → option (list nat))
    (K : nat) (ds : rasterized_ds) (region : string) (labels : list nat) :
  fit (Z.of_nat K) (samples (n_timeSteps ds) (regional_capfac_da ds region))
  = Some labels →
  K_clusters K (n_ts ds region) labels →
  (lockstep ds region →
   ∃ frag, _cluster_RE_technology fit (Z.of_nat K) ds region = Ok frag)
  ∧ ∀ frag t,
      _cluster_RE_technology fit (Z.of_nat K) ds region = Ok frag →
      t < n_timeSteps ds →
      fsum ((λ k, fmul (Fin (TS_capacity frag k)) (TS_capfac frag k t))
              <$> seq 0 K)
      = Fin (sumQ ((λ i, cell_capacity ds i * cell_capfac ds i t)%Qc
                     <$> filtered_cells ds region)).
Proof.
  intros Hfit Hclusters. split.
  - intros Hlock. eexists. by apply cluster_returns.
  - intros frag t Hrun Ht.
    destruct (cluster_result fit K ds region labels Hfit Hclusters frag Hrun)
      as [Hlen ->].
    destruct Hclusters as (_ & Hlt & HK).
    rewrite <-(select_partition_sum
                 (λ i, cell_capacity ds i * cell_capfac ds i t)%Qc labels
                 (filtered_cells ds region) K) by done.
    rewrite <-(fsum_Fin (λ k, cluster_power ds region labels k t)).
    f_equal. apply list_fmap_ext. intros i k Hk.
    apply lookup_seq in Hk as [-> Hk]. unfold TS_capacity, TS_capfac. simpl.
    rewrite !list_lookup_fmap, lookup_seq_lt by done. simpl.
    unfold cluster_capfac. rewrite list_lookup_fmap, lookup_seq_lt by done.
    simpl. apply fmul_fdiv.
    assert (0 < cluster_capacity ds region labels i)%Qc as Hpos.
    { apply cluster_capacity_pos; [done|]. by eapply labels_cover. }
    intros Hz. rewrite Hz in Hpos. by apply (irreflexivity Qclt) in Hpos.
Qed.

(** ** One cluster against the simple aggregator *)

Lemma select_all {A} (labels : list nat) (l : list A) :
  length labels = length l → Forall (λ k, k < 1) labels →
  select (cluster_mask labels 0) l = l.
Proof.
  revert l. induction labels as [|a labels IH]; intros [|x l] Hlen Hlt;
    try discriminate; [done|].
  apply Forall_cons in Hlt as [Ha Hlt]. injection Hlen as Hlen.
  rewrite select_cluster_cons, bool_decide_eq_true_2 by lia.
  by rewrite IH.
Qed.

(** With the arrays in lockstep, one cluster gives the time series of the
    simple aggregator; the capacity of the simple aggregator is the capacity
    of the cluster cast to an integer. *)
Lemma cluster_K1_simple
    (fit : Z → list (list value) → option (list nat))
    (ds : rasterized_ds) (region : string) (labels : list nat) :
  fit 1%Z (samples (n_timeSteps ds) (regional_capfac_da ds region))
  = Some labels →
  K_clusters 1 (n_ts ds region) labels →
  lockstep ds region →
  ∃ c, _cluster_RE_technology fit 1 ds region
       = Ok {| represented_capacities := [c];
               represented_timeSeries_perTS :=
                 [represented_timeSeries
                    (_simply_aggregate_RE_technology ds region)] |}
       ∧ represented_capacity (_simply_aggregate_RE_technology ds region)
         = astype_int64 c.
Proof.
  intros Hfit Hclusters Hlock.
  pose proof (cluster_returns fit 1 ds region labels Hfit Hclusters Hlock)
    as Hrun.
  destruct Hclusters as (Hlen & Hlt & _).
  rewrite (lockstep_n_ts _ _ Hlock) in Hlen.
  assert (cluster_cells ds region labels 0 = filtered_cells ds region)
    as Hcells by by apply select_all.
  exists (cluster_capacity ds region labels 0).
  rewrite simple_aggregate_closed_form, lockstep_capacity_cells by done.
  split; [|by unfold cluster_capacity; rewrite Hcells].
  change (_cluster_RE_technology fit 1 ds region)
    with (_cluster_RE_technology fit (Z.of_nat 1) ds region).
  rewrite Hrun. simpl. do 3 f_equal.
  unfold cluster_capfac, cluster_power, cluster_capacity. by rewrite Hcells.
Qed.

(** ** Bounds of the capacity factor of a cluster *)

(** Whenever the cluster aggregator returns, the capacity factor of each
    cluster lies between any bounds of the capacity factors of the cells of
    that cluster at that time step. *)
Lemma cluster_capfac_bounds
    (fit : Z → list (list value) → option (list nat))
    (K : nat) (ds : rasterized_ds) (region : string) (labels : list nat)
    (frag : cluster_fragment) (k t : nat) (lo hi : Qc) :
  fit (Z.of_nat K) (samples (n_timeSteps ds) (regional_capfac_da ds region))
  = Some labels →
  K_clusters K (n_ts ds region) labels →
  _cluster_RE_technology fit (Z.of_nat K) ds region = Ok frag →
  k < K → t < n_timeSteps ds →
  (∀ i, i ∈ cluster_cells ds region labels k →
        (lo ≤ cell_capfac ds i t ≤ hi)%Qc) →
  ∃ v, TS_capfac frag k t = Fin v ∧ (lo ≤ v ≤ hi)%Qc.
Proof.
  intros Hfit Hclusters Hrun Hk Ht Hf.
  destruct (cluster_result fit K ds region labels Hfit Hclusters frag Hrun)
    as [Hlen ->].
  destruct Hclusters as (_ & Hlt & HK).
  assert (0 < cluster_capacity ds region labels k)%Qc as Hpos.
  { apply cluster_capacity_pos; [done|]. by eapply labels_cover. }
  unfold TS_capfac. simpl.
  rewrite list_lookup_fmap, lookup_seq_lt by done. simpl.
  unfold cluster_capfac. rewrite list_lookup_fmap, lookup_seq_lt by done.
  simpl. unfold fdiv. rewrite decide_False.
  2:{ intros Hz. rewrite Hz in Hpos. by apply (irreflexivity Qclt) in Hpos. }
  eexists. split; [done|].
  destruct (sumQ_weighted_bounds (cell_capacity ds)
              (λ i, cell_capfac ds i t) lo hi
              (cluster_cells ds region labels k)) as [Hlo Hhi].
  { intros i Hi. split; [|by apply Hf].
    apply elem_of_select, filtered_cells_capacity, capacity_cells_value in Hi
      as (c & Hc & Hcpos).
    unfold cell_capacity. rewrite Hc. by apply Qclt_le_weak. }
  by apply Qcdiv_bounds.
Qed.

(** ** The merge *)

Section merge.
Context `{EqDecision A}.
Implicit Types (a b acc m : gmap string A) (l : list (gmap string A)).

Lemma merge2_Ok a b m : merge2 a b = Ok m ↔ map_agree a b ∧ m = a ∪ b.
Proof.
  unfold merge2. destruct (decide (map_agree a b)); naive_solver.
Qed.

Lemma merge2_agree a b : map_agree a b → merge2 a b = Ok (a ∪ b).
Proof. intros. by apply merge2_Ok. Qed.

Lemma merge2_conflict a b : ¬ map_agree a b → merge2 a b = Raise MergeError.
Proof. intros. unfold merge2. by rewrite decide_False. Qed.

(** Agreement with a union, for operands that agree. *)
Lemma map_agree_union_l a b c :
  map_agree a b → map_agree (a ∪ b) c ↔ map_agree a c ∧ map_agree b c.
Proof.
  rewrite !map_agree_spec. intros Hab. split.
  - intros H. split; intros i x y Hx Hy.
    + apply (H i x y); [|done]. by apply lookup_union_Some_l.
    + destruct (a !! i) as [x'|] eqn:Ha.
      * rewrite <-(Hab i x' x Ha Hx).
        apply (H i x' y); [|done]. by apply lookup_union_Some_l.
      * apply (H i x y); [|done]. by rewrite lookup_union_r.
  - intros [Hac Hbc] i x y Hx Hy.
    apply lookup_union_Some_raw in Hx as [Hx|[_ Hx]]; eauto.
Qed.

Lemma union_swap a b c :
  map_agree b c → (a ∪ b) ∪ c = (a ∪ c) ∪ b.
Proof.
  rewrite map_agree_spec. intros Hbc. apply map_eq. intros i.
  rewrite !lookup_union.
  destruct (a !! i) as [x|], (b !! i) as [y|] eqn:Hb,
    (c !! i) as [z|] eqn:Hc; simpl; try done.
  all: rewrite (Hbc i y z Hb Hc); done.
Qed.

(** Two fragments can be merged into the accumulated dataset in either
    order. *)
Lemma merge2_swap acc a b :
  (acc' ← merge2 acc a; merge2 acc' b)
  = (acc' ← merge2 acc b; merge2 acc' a).
Proof.
  destruct (decide (map_agree acc a)) as [Ha|Ha],
    (decide (map_agree acc b)) as [Hb|Hb].
  - rewrite !merge2_agree by done. simpl.
    destruct (decide (map_agree a b)) as [Hab|Hab].
    + rewrite !merge2_agree.
      * f_equal. by apply union_swap.
      * apply map_agree_union_l; [done|]. split; [done|by symmetry].
      * by apply map_agree_union_l.
    + rewrite !merge2_conflict; [done|..].
      * rewrite map_agree_union_l by done. intros [_ ?]. by destruct Hab.
      * rewrite map_agree_union_l by done. by intros [_ ?].
  - rewrite (merge2_agree acc a), (merge2_conflict acc b) by done. simpl.
    apply merge2_conflict. rewrite map_agree_union_l by done. by intros [? _].
  - rewrite (merge2_conflict acc a), (merge2_agree acc b) by done. simpl.
    symmetry. apply merge2_conflict.
    rewrite map_agree_union_l by done. by intros [? _].
  - by rewrite !merge2_conflict.
Qed.

Lemma merge_into_permutation l l' :
  l ≡ₚ l' → ∀ acc, merge_into acc l = merge_into acc l'.
Proof.
  induction 1 as [|d l l' _ IH|d d' l|l l' l'' _ IH1 _ IH2]; intros acc.
  - done.
  - simpl. destruct (merge2 acc d); simpl; [apply IH|done].
  - simpl.
    pose proof (merge2_swap acc d' d) as Hswap.
    destruct (merge2 acc d') as [m1|e1], (merge2 acc d) as [m2|e2];
      simpl in *.
    + destruct (merge2 m1 d) as [m3|], (merge2 m2 d') as [m4|];
        simpl; congruence.
    + destruct (merge2 m1 d); simpl; congruence.
    + destruct (merge2 m2 d'); simpl; congruence.
    + congruence.
  - by rewrite IH1.
Qed.

(** Fragments of single regions whose data is determined by the region
    always merge. *)
Lemma merge_into_singletons (g : string → A) (rs : list string) acc :
  (∀ r x, acc !! r = Some x → x = g r) →
  ∃ m, merge_into acc ((λ r, {[ r := g r ]}) <$> rs) = Ok m.
Proof.
  revert acc. induction rs as [|r rs IH]; intros acc Hacc; simpl.
  - by eexists.
  - rewrite merge2_agree.
    + simpl. apply IH. intros r' x.
      rewrite lookup_union_Some_raw, lookup_singleton_Some.
      intros [?|[_ [<- <-]]]; eauto.
    + apply map_agree_singleton_r.
      destruct (acc !! r) as [x|] eqn:Hr; [left|by right].
      f_equal. eauto.
Qed.
End merge.

(** C8. The merged dataset does not depend on the order of the fragments:
    merging any permutation of the same fragments gives the same result. *)
Theorem xr_merge_permutation `{EqDecision A} (l l' : list (gmap string A)) :
  l ≡ₚ l' → xr_merge l = xr_merge l'.
Proof. intros Hperm. by apply merge_into_permutation. Qed.

(** ** The tasks and the scheduler *)

Lemma mapM_Ok_inv {A B} (f : A → result B) (l : list A) (k : list B) :
  mapM f l = Ok k → Forall2 (λ x y, f x = Ok y) l k.
Proof.
  revert k. induction l as [|x l IH]; intros k; simpl.
  - intros [= <-]. constructor.
  - destruct (f x) as [y|] eqn:Hy; simpl; [|done].
    destruct (mapM f l) as [k'|]; simpl; [|done].
    intros [= <-]. constructor; [done|]. by apply IH.
Qed.

Lemma mapM_Ok_all {A B} (f : A → result B) (g : A → B) (l : list A) :
  Forall (λ x, f x = Ok (g x)) l → mapM f l = Ok (g <$> l).
Proof.
  induction 1 as [|x l Hx _ IH]; [done|]. simpl. by rewrite Hx, IH.
Qed.

Lemma mapM_Raise {A B} (f : A → result B) (l : list A) (x : A) (e : exn) :
  x ∈ l → f x = Raise e → ∃ e', mapM f l = Raise e'.
Proof.
  intros Hx Hf. induction l as [|y l IH]; [by apply elem_of_nil in Hx|].
  simpl. destruct (f y) as [b|e1] eqn:Hy; simpl; [|by eexists].
  apply elem_of_cons in Hx as [->|Hx]; [congruence|].
  destruct (IH Hx) as [e' ->]. simpl. by eexists.
Qed.

(** A label that occurs once on the axis is selected once. *)
Lemma filter_eq_absent (l : list string) (x : string) :
  x ∉ l → filter (λ r, r = x) l = [].
Proof.
  induction l as [|y l IH]; [done|]. intros Hx.
  apply not_elem_of_cons in Hx as [Hne Hx].
  rewrite filter_cons_False by congruence. by apply IH.
Qed.

Lemma filter_eq_once (l : list string) (x : string) :
  NoDup l → x ∈ l → filter (λ r, r = x) l = [x].
Proof.
  induction 1 as [|y l Hy Hnd IH]; [by intros ?%elem_of_nil|].
  intros Hx. destruct (decide (y = x)) as [->|Hne].
  - rewrite filter_cons_True by done. by rewrite filter_eq_absent.
  - rewrite filter_cons_False by done.
    apply elem_of_cons in Hx as [->|Hx]; [done|]. by apply IH.
Qed.

Lemma filter_eq_NoDup (l : list string) :
  (∀ x, x ∈ l → ∃ r, filter (λ r, r = x) l = [r]) → NoDup l.
Proof.
  induction l as [|y l IH]; [constructor|]. intros Hl.
  assert (y ∉ l) as Hy.
  { destruct (Hl y) as [r Hr]; [by left|].
    rewrite filter_cons_True in Hr by done. injection Hr as _ Hr.
    intros Hin. assert (y ∈ filter (λ r, r = y) l) as Hin'
      by by apply list_elem_of_filter.
    rewrite Hr in Hin'. by apply elem_of_nil in Hin'. }
  constructor; [done|]. apply IH. intros x Hx.
  destruct (Hl x) as [r Hr]; [by right|].
  rewrite filter_cons_False in Hr by (intros ->; done). by exists r.
Qed.

Section simple_task.
Context (ds : rasterized_ds) (region : string).

(** The task of the simple aggregator returns exactly when the region is
    selected once and there is a time step. *)
Lemma simple_task_Ok (f : simple_fragment) :
  simple_task ds region = Ok f
  ↔ (∃ r, sel_region_ids ds region = [r])
    ∧ 0 < n_timeSteps ds
    ∧ f = _simply_aggregate_RE_technology ds region.
Proof.
  unfold simple_task.
  destruct (sel_region_ids ds region) as [|r others]; [naive_solver|].
  destruct (decide (n_timeSteps ds = 0)); [naive_solver lia|].
  destruct (decide (others = [])) as [->|]; [|naive_solver].
  split; [intros [= <-]|intros (_ & _ & ->)]; [|done].
  split; [by eexists|]. split; [lia|done].
Qed.

(** The task of a region that is listed once, with a time step. *)
Lemma simple_task_listed :
  NoDup (region_ids ds) → region ∈ region_ids ds → 0 < n_timeSteps ds →
  simple_task ds region = Ok (_simply_aggregate_RE_technology ds region).
Proof.
  intros Hnd Hin HT. apply simple_task_Ok.
  split; [|done]. exists region. by apply filter_eq_once.
Qed.
End simple_task.

Section cluster_task.
Context (fit : Z → list (list value) → option (list nat)).
Context (K : Z) (ds : rasterized_ds) (region : string).

Lemma cluster_task_Ok (f : cluster_fragment) :
  cluster_task fit K ds region = Ok f
  ↔ (∃ r, sel_region_ids ds region = [r])
    ∧ 0 < n_timeSteps ds
    ∧ _cluster_RE_technology fit K ds region = Ok f.
Proof.
  unfold cluster_task. destruct (decide (K < 0)%Z) as [HK|HK].
  { unfold _cluster_RE_technology. rewrite decide_True by done.
    naive_solver. }
  destruct (sel_region_ids ds region) as [|r others]; [naive_solver|].
  destruct (decide (n_timeSteps ds = 0)); [naive_solver lia|].
  destruct (decide (others = [])) as [->|]; [|naive_solver].
  split; [intros Hf|by intros (_ & _ & ->)].
  split; [by eexists|]. split; [lia|done].
Qed.

(** Where the aggregator raises, its task raises. *)
Lemma cluster_task_Raise (e : exn) :
  _cluster_RE_technology fit K ds region = Raise e →
  ∃ e', cluster_task fit K ds region = Raise e'.
Proof.
  intros Hraise.
  destruct (cluster_task fit K ds region) as [f|e'] eqn:Htask; [|by eexists].
  apply cluster_task_Ok in Htask as (_ & _ & Hf). congruence.
Qed.

Lemma cluster_task_listed :
  NoDup (region_ids ds) → region ∈ region_ids ds → 0 < n_timeSteps ds →
  cluster_task fit K ds region = _cluster_RE_technology fit K ds region.
Proof.
  intros Hnd Hin HT.
  destruct (_cluster_RE_technology fit K ds region) as [f|e] eqn:Hf.
  - apply cluster_task_Ok. split; [|done]. exists region.
    by apply filter_eq_once.
  - unfold cluster_task. unfold sel_region_ids.
    rewrite filter_eq_once by done.
    rewrite (decide_False (P := n_timeSteps ds = 0)) by lia.
    rewrite (decide_True (P := ([] : list string) = [])) by done.
    destruct (decide (K < 0)%Z) as [HK|HK]; [|done].
    unfold _cluster_RE_technology in Hf. by rewrite decide_True in Hf.
Qed.
End cluster_task.

Section merged_lookup.
Context `{EqDecision A}.

Lemma merge_into_singletons_lookup (g : string → A) (rs : list string)
    (acc m : gmap string A) (r : string) :
  (∀ r x, acc !! r = Some x → x = g r) →
  merge_into acc ((λ r, {[ r := g r ]}) <$> rs) = Ok m →
  m !! r = if decide (r ∈ rs) then Some (g r) else acc !! r.
Proof.
  revert acc. induction rs as [|r0 rs IH]; intros acc Hacc.
  - intros [= <-]. case_decide as Hin; [|done]. by apply elem_of_nil in Hin.
  - rewrite fmap_cons. cbn [merge_into]. rewrite merge2_agree.
    2:{ apply map_agree_singleton_r.
        destruct (acc !! r0) as [x|] eqn:Hr; [left|by right].
        f_equal. eauto. }
    simpl. intros Hrun.
    assert (∀ r' x, (acc ∪ {[r0 := g r0]}) !! r' = Some x → x = g r')
      as Hacc'.
    { intros r' x. rewrite lookup_union_Some_raw, lookup_singleton_Some.
      intros [?|[_ [<- <-]]]; eauto. }
    rewrite (IH _ Hacc' Hrun).
    destruct (decide (r ∈ rs)) as [Hin|Hin].
    + rewrite decide_True; [done|by right].
    + destruct (decide (r = r0)) as [->|Hne].
      * rewrite decide_True by by left.
        destruct (acc !! r0) as [x|] eqn:Hr.
        -- rewrite (lookup_union_Some_l _ _ _ _ Hr). f_equal. by eapply Hacc.
        -- rewrite lookup_union_r by done. by rewrite lookup_singleton_eq.
      * rewrite decide_False by (by intros [?|?]%elem_of_cons).
        by rewrite lookup_union_l by by rewrite lookup_singleton_ne.
Qed.
End merged_lookup.

(** The scheduler over the tasks of one mode. *)
Section gather_and_merge.
Context {B : Type} (task : string → result B) (inj : B → regional_data).
Context (g : string → B) (rs : list string).

(** When every task returns, the fragments merge without conflict, and the
    merged dataset holds the data of each region under its label. *)
Lemma gather_and_merge_Ok :
  Forall (λ r, task r = Ok (g r)) rs →
  ∃ out,
    gather_and_merge task inj rs = Ok out
    ∧ ∀ region,
        out !! region
        = if decide (region ∈ rs) then Some (inj (g region)) else None.
Proof.
  intros Hall. unfold gather_and_merge.
  rewrite (mapM_Ok_all _ (λ region, {[ region := inj (g region) ]})).
  2:{ eapply Forall_impl; [exact Hall|]. intros r Hr. simpl. by rewrite Hr. }
  simpl. unfold xr_merge.
  destruct (merge_into_singletons (λ r, inj (g r)) rs ∅) as [out Hout].
  { intros r x. by rewrite lookup_empty. }
  exists out. split; [done|]. intros region.
  rewrite (merge_into_singletons_lookup (λ r, inj (g r)) rs ∅ out region);
    [|intros r x|done].
  - by rewrite lookup_empty.
  - by rewrite lookup_empty.
Qed.

(** When the invocation returns, every task returned. *)
Lemma gather_and_merge_Ok_inv (out : gmap string regional_data) :
  gather_and_merge task inj rs = Ok out →
  Forall (λ r, ∃ f, task r = Ok f) rs.
Proof.
  unfold gather_and_merge.
  destruct (mapM _ rs) as [results|] eqn:Hres; simpl; [|done]. intros _.
  apply mapM_Ok_inv in Hres. apply Forall_forall. intros r Hr.
  apply list_elem_of_lookup in Hr as [i Hi].
  destruct (Forall2_lookup_l _ _ _ _ _ Hres Hi) as (d & _ & Hd).
  simpl in Hd. destruct (task r) as [f|]; [by eexists|done].
Qed.

(** When one task raises, the invocation raises. *)
Lemma gather_and_merge_Raise (r : string) (e : exn) :
  r ∈ rs → task r = Raise e →
  ∃ e', gather_and_merge task inj rs = Raise e'.
Proof.
  intros Hin Hraise. unfold gather_and_merge.
  destruct (mapM_Raise
              (λ region,
                 f ← task region;
                 Ok ({[ region := inj f ]} : gmap string regional_data))
              rs r e Hin) as [e' He'].
  { by rewrite Hraise. }
  exists e'. by rewrite He'.
Qed.
End gather_and_merge.

(** The two modes of the scheduler. *)
Lemma represent_simple_mode
    (fit : Z → list (list value) → option (list nat)) (ds : rasterized_ds) :
  represent_RE_technology fit ds 1
  = gather_and_merge (simple_task ds) Simple (region_ids ds).
Proof. done. Qed.

Lemma represent_cluster_mode
    (fit : Z → list (list value) → option (list nat)) (ds : rasterized_ds)
    (K : Z) :
  K ≠ 1%Z →
  represent_RE_technology fit ds K
  = gather_and_merge (cluster_task fit K ds) Clustered (region_ids ds).
Proof.
  intros HK. unfold represent_RE_technology. by rewrite decide_False.
Qed.

(** An invocation that returns had every region id listed once, and a time
    step if a region is listed. *)
Lemma represent_Ok_inv
    (fit : Z → list (list value) → option (list nat)) (ds : rasterized_ds)
    (K : Z) (out : gmap string regional_data) :
  represent_RE_technology fit ds K = Ok out →
  NoDup (region_ids ds)
  ∧ Forall (λ region, 0 < n_timeSteps ds) (region_ids ds)
  ∧ (K ≠ 1%Z →
     Forall (λ region, ∃ f, _cluster_RE_technology fit K ds region = Ok f)
            (region_ids ds)).
Proof.
  intros Hrun. destruct (decide (K = 1%Z)) as [->|HK].
  - rewrite represent_simple_mode in Hrun.
    apply gather_and_merge_Ok_inv in Hrun. rewrite Forall_forall in Hrun.
    split; [|split; [|done]].
    + apply filter_eq_NoDup. intros r Hr.
      destruct (Hrun r Hr) as [f Hf].
      apply simple_task_Ok in Hf as [Hsel _]. exact Hsel.
    + apply Forall_forall. intros r Hr.
      destruct (Hrun r Hr) as [f Hf].
      by apply simple_task_Ok in Hf as (_ & ? & _).
  - rewrite represent_cluster_mode in Hrun by done.
    apply gather_and_merge_Ok_inv in Hrun. rewrite Forall_forall in Hrun.
    split; [|split].
    + apply filter_eq_NoDup. intros r Hr.
      destruct (Hrun r Hr) as [f Hf].
      apply cluster_task_Ok in Hf as [Hsel _]. exact Hsel.
    + apply Forall_forall. intros r Hr.
      destruct (Hrun r Hr) as [f Hf].
      by apply cluster_task_Ok in Hf as (_ & ? & _).
    + intros _. apply Forall_forall. intros r Hr.
      destruct (Hrun r Hr) as [f Hf].
      apply cluster_task_Ok in Hf as (_ & _ & ?). by exists f.
Qed.

(** An invocation returns when the region ids are distinct, there is a time
    step and, in cluster mode, the aggregator returns for every region. *)
Lemma represent_returns
    (fit : Z → list (list value) → option (list nat)) (ds : rasterized_ds)
    (K : Z) :
  NoDup (region_ids ds) → 0 < n_timeSteps ds →
  (K ≠ 1%Z →
   Forall (λ region, ∃ f, _cluster_RE_technology fit K ds region = Ok f)
          (region_ids ds)) →
  ∃ out,
    represent_RE_technology fit ds K = Ok out
    ∧ ∀ region,
        out !! region
        = if decide (region ∈ region_ids ds) then
            Some (if decide (K = 1%Z) then
                    Simple (_simply_aggregate_RE_technology ds region)
                  else Clustered (clustered_fragment fit K ds region))
          else None.
Proof.
  intros Hnd HT Hall. destruct (decide (K = 1%Z)) as [->|HK].
  - rewrite represent_simple_mode.
    apply (gather_and_merge_Ok _ _ (_simply_aggregate_RE_technology ds)).
    apply Forall_forall. intros r Hr. by apply simple_task_listed.
  - rewrite represent_cluster_mode by done.
    apply (gather_and_merge_Ok _ _ (clustered_fragment fit K ds)).
    specialize (Hall HK). rewrite Forall_forall in Hall.
    apply Forall_forall. intros r Hr. rewrite cluster_task_listed by done.
    destruct (Hall r Hr) as [f Hf]. unfold clustered_fragment.
    by rewrite Hf.
Qed.

(** The merged dataset of an invocation that returns. *)
Lemma represent_Ok_lookup
    (fit : Z → list (list value) → option (list nat)) (ds : rasterized_ds)
    (K : Z) (out : gmap string regional_data) (region : string) :
  represent_RE_technology fit ds K = Ok out →
  out !! region
  = if decide (region ∈ region_ids ds) then
      Some (if decide (K = 1%Z) then
              Simple (_simply_aggregate_RE_technology ds region)
            else Clustered (clustered_fragment fit K ds region))
    else None.
Proof.
  intros Hrun. pose proof (represent_Ok_inv _ _ _ _ Hrun) as (Hnd & HT & Hall).
  destruct (region_ids ds) as [|r0 rs] eqn:Hrs.
  - unfold represent_RE_technology in Hrun. rewrite Hrs in Hrun.
    destruct (decide (K = 1%Z)); simpl in Hrun; injection Hrun as <-;
      rewrite lookup_empty; by rewrite decide_False by apply not_elem_of_nil.
  - apply Forall_cons in HT as [HT _]. rewrite <-Hrs in *.
    destruct (represent_returns fit ds K Hnd HT Hall) as (out' & Hrun' & Hl).
    rewrite Hrun in Hrun'. injection Hrun' as <-. apply Hl.
Qed.

Lemma represent_Ok_dom
    (fit : Z → list (list value) → option (list nat)) (ds : rasterized_ds)
    (K : Z) (out : gmap string regional_data) (region : string) :
  represent_RE_technology fit ds K = Ok out →
  region ∈ dom out ↔ region ∈ region_ids ds.
Proof.
  intros Hrun. rewrite elem_of_dom, (represent_Ok_lookup _ _ _ _ _ Hrun).
  destruct (decide (region ∈ region_ids ds)); split; try done.
Qed.

(** C7. Region completeness.  An invocation returns when the region ids of
    the rasterized dataset are distinct, there is a time step and, in
    cluster mode, the two filtered arrays of every region hold the same
    cells and the clustering gives them [K] clusters.  Whenever an
    invocation returns, the region labels of the merged dataset are the
    region ids of the rasterized dataset, each of them once. *)
Theorem region_completeness
    (fit : Z → list (list value) → option (list nat))
    (ds : rasterized_ds) (K : Z) :
  (NoDup (region_ids ds) → 0 < n_timeSteps ds →
   (K ≠ 1%Z →
    (0 ≤ K)%Z
    ∧ Forall (λ region,
                lockstep ds region
                ∧ ∃ labels,
                    fit K (samples (n_timeSteps ds)
                                   (regional_capfac_da ds region))
                    = Some labels
                    ∧ K_clusters (Z.to_nat K) (n_ts ds region) labels)
             (region_ids ds)) →
   ∃ out, represent_RE_technology fit ds K = Ok out)
  ∧ ∀ out,
      represent_RE_technology fit ds K = Ok out →
      region_coordinate out ≡ₚ region_ids ds
      ∧ dom out = list_to_set (region_ids ds).
Proof.
  split.
  - intros Hnd HT Hall.
    destruct (represent_returns fit ds K Hnd HT) as (out & Hrun & _);
      [|by exists out].
    intros HK. destruct (Hall HK) as [HK0 Hregions].
    eapply Forall_impl; [exact Hregions|]. simpl.
    intros region (Hlock & labels & Hfit & Hclusters).
    rewrite <-(Z2Nat.id K) by done. rewrite <-(Z2Nat.id K) in Hfit by done.
    eexists. by eapply cluster_returns.
  - intros out Hrun.
    pose proof (represent_Ok_inv _ _ _ _ Hrun) as (Hnd & _ & _).
    assert (∀ k : string, k ∈ region_coordinate out ↔ k ∈ dom out) as Hcoord.
    { intros k. unfold region_coordinate.
      rewrite elem_of_dom, list_elem_of_fmap. split.
      - intros ([k' x] & -> & Hkx). exists x. by apply elem_of_map_to_list.
      - intros [x Hx]. exists (k, x). split; [done|].
        by apply elem_of_map_to_list. }
    split.
    + apply NoDup_Permutation; [apply NoDup_fst_map_to_list|done|].
      intros k. by rewrite Hcoord, (represent_Ok_dom _ _ _ _ _ Hrun).
    + apply set_eq. intros k.
      by rewrite elem_of_list_to_set, (represent_Ok_dom _ _ _ _ _ Hrun).
Qed.

Lemma region_completeness_witness :
  (∃ out,
     represent_RE_technology fit_in_turn scenario_ds 1 = Ok out
     ∧ region_coordinate out ≡ₚ ["A"; "B"; "C"])
  ∧ ∃ out,
      represent_RE_technology fit_in_turn fractional_ds 2 = Ok out
      ∧ region_coordinate out ≡ₚ ["R"].
Proof.
  split.
  - destruct (region_completeness fit_in_turn scenario_ds 1) as [Hret Hout].
    destruct Hret as [out Hrun].
    + apply (bool_decide_unpack _). by vm_compute.
    + simpl. lia.
    + done.
    + exists out. split; [done|]. by apply Hout.
  - destruct (region_completeness fit_in_turn fractional_ds 2) as [Hret Hout].
    destruct Hret as [out Hrun].
    + apply (bool_decide_unpack _). by vm_compute.
    + simpl. lia.
    + intros _. split; [done|]. apply Forall_singleton. split.
      * unfold lockstep. by vm_compute.
      * exists [0; 1]. split; [by vm_compute|]. unfold K_clusters.
        split; [by vm_compute|split; [repeat constructor|by vm_compute]].
    + exists out. split; [done|]. by apply Hout.
Defined.

(** ** The cluster count *)






(** ** One cluster *)



(** ** Evaluations *)

(** C1. On the region with capacities 0.5 and 1 the filtered capacities
    sum to 1.5, and the simple aggregator returns the capacity 1. *)
Theorem simple_capacity_truncated :
  sumQ (cell_capacity fractional_ds <$> filtered_cells fractional_ds "R")
  = Q2Qc (3 # 2)
  ∧ _simply_aggregate_RE_technology fractional_ds "R"
    = {| represented_capacity := 1;
         represented_timeSeries := [Fin (Q2Qc (5 # 6))] |}.
Proof. split; apply (bool_decide_unpack _); by vm_compute. Qed.


(** C5. A cell of positive capacity whose capacity factor is missing stays
    in the capacity array and is dropped from the capacity-factor array. *)
Theorem filter_not_lockstep :
  x_y (regional_capacity_da missing_ds "R") = [0; 1]
  ∧ x_y (regional_capfac_da missing_ds "R") = [0]
  ∧ ¬ lockstep missing_ds "R".
Proof. repeat split; [by vm_compute..|]. unfold lockstep. by vm_compute. Qed.

(** C10. On that region the only surviving cell has the capacity factor
    0.5, and the simple aggregator returns the capacity factor 0.25. *)
Theorem simple_capfac_below_minimum :
  filtered_cells missing_ds "R" = [0]
  ∧ capfac missing_ds 0 0 = Some (Q2Qc (1 # 2))
  ∧ _simply_aggregate_RE_technology missing_ds "R"
    = {| represented_capacity := 2;
         represented_timeSeries := [Fin (Q2Qc (1 # 4))] |}.
Proof.
  split; [by vm_compute|]. split; [done|].
  apply (bool_decide_unpack _). by vm_compute.
Qed.

(** On that region the cluster aggregator raises: the mask built from the
    labels of the capacity-factor array does not fit the capacity array. *)
Lemma cluster_raises_without_lockstep :
  _cluster_RE_technology fit_in_turn 1 missing_ds "R"
  = Raise IndexError_boolean_index.
Proof. by vm_compute. Qed.

(** C9. On the region whose two cells of positive capacity have an
    incomplete capacity factor no cell survives the filter, the total
    capacity is 4, not 0, and the simple aggregator returns the capacity
    factor 0 at both time steps, not NaN; the invocation returns that
    result for the region. *)
Theorem simple_series_zero_without_cells :
  filtered_cells unobserved_ds "R" = []
  ∧ _simply_aggregate_RE_technology unobserved_ds "R"
    = {| represented_capacity := 4;
         represented_timeSeries := [Fin 0%Qc; Fin 0%Qc] |}
  ∧ represent_RE_technology fit_in_turn unobserved_ds 1
    = Ok {[ "R" := Simple {| represented_capacity := 4;
                             represented_timeSeries :=
                               [Fin 0%Qc; Fin 0%Qc] |} ]}.
Proof.
  split; [by vm_compute|].
  split; apply (bool_decide_unpack _); by vm_compute.
Qed.

(** ** Instances on the scenario *)

Lemma cluster_capacity_conservation_witness :
  ∃ frag,
    _cluster_RE_technology fit_in_turn 2 scenario_ds "B" = Ok frag
    ∧ sumQ (TS_capacity frag <$> seq 0 2)
      = sumQ (cell_capacity scenario_ds <$> filtered_cells scenario_ds "B").
Proof.
  destruct (cluster_capacity_conservation fit_in_turn 2 scenario_ds "B" [0; 1])
    as [Hret Hsum].
  - by vm_compute.
  - unfold K_clusters.
    split; [by vm_compute|split; [repeat constructor|by vm_compute]].
  - destruct Hret as [frag Hfrag]; [by vm_compute|].
    exists frag. split; [done|]. by apply Hsum.
Defined.

Lemma cluster_power_conservation_witness :
  ∃ frag,
    _cluster_RE_technology fit_in_turn 2 scenario_ds "B" = Ok frag
    ∧ fsum ((λ k, fmul (Fin (TS_capacity frag k)) (TS_capfac frag k 1))
              <$> seq 0 2)
      = Fin (sumQ ((λ i, cell_capacity scenario_ds i
                         * cell_capfac scenario_ds i 1)%Qc
                     <$> filtered_cells scenario_ds "B")).
Proof.
  destruct (cluster_power_conservation fit_in_turn 2 scenario_ds "B" [0; 1])
    as [Hret Hsum].
  - by vm_compute.
  - unfold K_clusters.
    split; [by vm_compute|split; [repeat constructor|by vm_compute]].
  - destruct Hret as [frag Hfrag]; [by vm_compute|].
    exists frag. split; [done|]. apply Hsum; [done|]. simpl. lia.
Defined.

Lemma xr_merge_permutation_witness :
  let fragment region : gmap string regional_data :=
    {[ region := Simple (_simply_aggregate_RE_technology scenario_ds region) ]}
  in
  xr_merge [fragment "A"; fragment "B"; fragment "C"]
  = xr_merge [fragment "C"; fragment "A"; fragment "B"].
Proof.
  intros fragment. apply xr_merge_permutation.
  symmetry. apply (Permutation_cons_append [fragment "A"; fragment "B"]).
Defined.

(** * Further properties of the aggregators *)

(** ** The simple aggregator on every input *)


(** X3. The total capacity summed by the simple aggregator is 0 exactly
    when no cell of the region passes the capacity filter: the filtered
    capacities are strictly positive. *)
Theorem capacity_total_zero_iff_empty (ds : rasterized_ds) (region : string) :
  sum_1d (regional_capacity_da ds region) = 0%Qc
  ↔ capacity_cells ds region = [].
Proof. by rewrite total_capacity_zero_iff, x_y_regional_capacity_da. Qed.

(** ** Lockstep *)

(** X4. With at least one time step, the capacity-factor array holds the
    cells of the capacity array whose series is complete; the two arrays
    hold the same cells exactly when every cell of positive capacity of the
    region has a complete series. *)
Theorem lockstep_iff_complete (ds : rasterized_ds) (region : string) :
  0 < n_timeSteps ds →
  x_y (regional_capfac_da ds region)
  = filter (complete_capfac ds) (x_y (regional_capacity_da ds region))
  ∧ (lockstep ds region
     ↔ Forall (complete_capfac ds) (capacity_cells ds region)).
Proof.
  intros HT. rewrite x_y_regional_capfac_da_filtered by done.
  rewrite x_y_regional_capacity_da, filtered_cells_capacity_cells.
  split; [done|]. unfold lockstep.
  rewrite x_y_regional_capacity_da, x_y_regional_capfac_da_filtered by done.
  rewrite filtered_cells_capacity_cells. split.
  - intros Heq. rewrite Heq. apply Forall_forall. intros i Hi.
    apply list_elem_of_filter in Hi. by destruct Hi.
  - intros Hall. symmetry. by apply filter_all.
Qed.

Lemma lockstep_iff_complete_witness :
  x_y (regional_capfac_da missing_ds "R")
  = filter (complete_capfac missing_ds)
           (x_y (regional_capacity_da missing_ds "R"))
  ∧ (lockstep missing_ds "R"
     ↔ Forall (complete_capfac missing_ds) (capacity_cells missing_ds "R")).
Proof. apply (lockstep_iff_complete missing_ds "R"). simpl. lia. Defined.

(** X5. Simple mode, arrays in lockstep and at least one filtered cell: at
    every time step the returned capacity factor lies between any two
    bounds of the capacity factors of the filtered cells at that step (in
    exact arithmetic; on binary64 within floating-point tolerance). *)
Theorem simple_capfac_between (ds : rasterized_ds) (region : string)
    (t : nat) (lo hi : Qc) :
  lockstep ds region →
  filtered_cells ds region ≠ [] →
  t < n_timeSteps ds →
  Forall (λ i, (lo ≤ cell_capfac ds i t ≤ hi)%Qc) (filtered_cells ds region) →
  ∃ v, represented_timeSeries (_simply_aggregate_RE_technology ds region) !! t
       = Some (Fin v)
       ∧ (lo ≤ v ≤ hi)%Qc.
Proof.
  intros Hlock Hne Ht Hf. apply simple_capfac_bounds; [done..|].
  by apply Forall_forall.
Qed.

Lemma simple_capfac_between_witness :
  ∃ v, represented_timeSeries (_simply_aggregate_RE_technology scenario_ds "B")
         !! 0 = Some (Fin v)
       ∧ (Q2Qc (1 # 10) ≤ v ≤ Q2Qc (3 # 10))%Qc.
Proof.
  apply (simple_capfac_between scenario_ds "B" 0).
  - by vm_compute.
  - by vm_compute.
  - simpl. lia.
  - apply (bool_decide_unpack _). by vm_compute.
Defined.

(** ** The cluster aggregator *)

(** X6. Whenever the cluster aggregator returns for labels that form [K]
    clusters, the capacity factor of each cluster lies between any two
    bounds of the capacity factors of the cells of that cluster (in exact
    arithmetic; on binary64 within floating-point tolerance). *)
Theorem cluster_capfac_between
    (fit : Z → list (list value) → option (list nat))
    (K : nat) (ds : rasterized_ds) (region : string) (labels : list nat)
    (frag : cluster_fragment) (k t : nat) (lo hi : Qc) :
  fit (Z.of_nat K) (samples (n_timeSteps ds) (regional_capfac_da ds region))
  = Some labels →
  K_clusters K (n_ts ds region) labels →
  _cluster_RE_technology fit (Z.of_nat K) ds region = Ok frag →
  k < K → t < n_timeSteps ds →
  Forall (λ i, (lo ≤ cell_capfac ds i t ≤ hi)%Qc)
         (cluster_cells ds region labels k) →
  ∃ v, TS_capfac frag k t = Fin v ∧ (lo ≤ v ≤ hi)%Qc.
Proof.
  intros Hfit Hclusters Hrun Hk Ht Hf.
  eapply cluster_capfac_bounds; [done..|]. by apply Forall_forall.
Qed.

Lemma cluster_capfac_between_witness :
  ∃ frag v,
    _cluster_RE_technology fit_in_turn 2 scenario_ds "B" = Ok frag
    ∧ TS_capfac frag 1 0 = Fin v
    ∧ (Q2Qc (3 # 10) ≤ v ≤ Q2Qc (3 # 10))%Qc.
Proof.
  assert (∃ frag, _cluster_RE_technology fit_in_turn 2 scenario_ds "B" = Ok frag)
    as [frag Hfrag] by (eexists; by vm_compute).
  destruct (cluster_capfac_between fit_in_turn 2 scenario_ds "B" [0; 1] frag
              1 0 (Q2Qc (3 # 10)) (Q2Qc (3 # 10))) as (v & Hv & Hb).
  - by vm_compute.
  - unfold K_clusters.
    split; [by vm_compute|split; [repeat constructor|by vm_compute]].
  - done.
  - lia.
  - simpl. lia.
  - apply (bool_decide_unpack _). by vm_compute.
  - by exists frag, v.
Defined.

(** X7. With the two arrays in lockstep, the cluster aggregator with one
    cluster returns the time series of the simple aggregator; the capacity
    of the simple aggregator is the capacity of the cluster cast to an
    integer. *)
Theorem one_cluster_is_simple
    (fit : Z → list (list value) → option (list nat))
    (ds : rasterized_ds) (region : string) (labels : list nat) :
  fit 1%Z (samples (n_timeSteps ds) (regional_capfac_da ds region))
  = Some labels →
  K_clusters 1 (n_ts ds region) labels →
  lockstep ds region →
  ∃ c, _cluster_RE_technology fit 1 ds region
       = Ok {| represented_capacities := [c];
               represented_timeSeries_perTS :=
                 [represented_timeSeries
                    (_simply_aggregate_RE_technology ds region)] |}
       ∧ represented_capacity (_simply_aggregate_RE_technology ds region)
         = astype_int64 c.
Proof. apply cluster_K1_simple. Qed.

Lemma one_cluster_is_simple_witness :
  ∃ c, _cluster_RE_technology fit_single 1 fractional_ds "R"
       = Ok {| represented_capacities := [c];
               represented_timeSeries_perTS :=
                 [represented_timeSeries
                    (_simply_aggregate_RE_technology fractional_ds "R")] |}
       ∧ represented_capacity (_simply_aggregate_RE_technology fractional_ds "R")
         = astype_int64 c.
Proof.
  apply (one_cluster_is_simple fit_single fractional_ds "R" [0; 0]).
  - by vm_compute.
  - unfold K_clusters.
    split; [by vm_compute|split; [repeat constructor|by vm_compute]].
  - by vm_compute.
Defined.

Lemma aggregate_cluster_bad_mask (K : Z) (ds : rasterized_ds)
    (region : string) (labels : list nat) (i : nat) (st : cluster_fragment) :
  length labels ≠ length (x_y (regional_capacity_da ds region)) →
  aggregate_cluster K ds region labels i st = Raise IndexError_boolean_index.
Proof.
  intros Hlen. unfold aggregate_cluster, boolean_index.
  destruct (decide (length (cluster_mask labels i)
                    = length (x_y (regional_capacity_da ds region))))
    as [Hl|]; [|done].
  unfold cluster_mask in Hl. by rewrite length_fmap in Hl.
Qed.

(** X8. When the two filtered arrays are not in lockstep and the
    clustering returns a label for each surviving cell (at least one), the
    cluster aggregator raises the IndexError of the boolean index into the
    capacity array, in the first iteration of its loop. *)
Theorem cluster_raises_out_of_lockstep
    (fit : Z → list (list value) → option (list nat))
    (K : Z) (ds : rasterized_ds) (region : string) (labels : list nat) :
  (0 ≤ K)%Z →
  fit K (samples (n_timeSteps ds) (regional_capfac_da ds region))
  = Some labels →
  length labels = n_ts ds region →
  labels ≠ [] →
  ¬ lockstep ds region →
  _cluster_RE_technology fit K ds region = Raise IndexError_boolean_index.
Proof.
  intros HK Hfit Hlen Hne Hlock. unfold _cluster_RE_technology.
  rewrite decide_False by lia. cbv zeta. rewrite Hfit.
  destruct (remove_dups labels) as [|l ls] eqn:Hd.
  { destruct labels as [|l labels']; [done|].
    assert (l ∈ remove_dups (l :: labels')) as Hl
      by (apply elem_of_remove_dups; by left).
    rewrite Hd in Hl. by apply elem_of_nil in Hl. }
  cbn [length seq for_each].
  rewrite aggregate_cluster_bad_mask; [done|].
  rewrite Hlen. intros Heq. apply Hlock.
  apply lockstep_of_length. by rewrite <-Heq.
Qed.

Lemma cluster_raises_out_of_lockstep_witness :
  _cluster_RE_technology fit_single 1 missing_ds "R"
  = Raise IndexError_boolean_index.
Proof.
  apply (cluster_raises_out_of_lockstep fit_single 1 missing_ds "R" [0]).
  - lia.
  - by vm_compute.
  - by vm_compute.
  - done.
  - unfold lockstep. by vm_compute.
Defined.

(** One iteration of the loop writes one capacity and one series of one
    value per time step, at position [i]. *)
Lemma aggregate_cluster_Ok_shape (K : Z) (ds : rasterized_ds)
    (region : string) (labels : list nat) (i : nat)
    (st st' : cluster_fragment) :
  aggregate_cluster K ds region labels i st = Ok st' →
  ∃ c s, length s = n_timeSteps ds
         ∧ st' = {| represented_capacities :=
                      <[i := c]> (represented_capacities st);
                    represented_timeSeries_perTS :=
                      <[i := s]> (represented_timeSeries_perTS st) |}.
Proof.
  unfold aggregate_cluster.
  destruct (boolean_index (regional_capacity_da ds region) _) as [ca|];
    simpl; [|done].
  destruct (TS_ids K !! i); simpl; [|done].
  destruct (boolean_index (regional_power_da ds region) _) as [pw|];
    simpl; [|done].
  intros [= <-]. eexists _, _. split; [|done].
  by rewrite length_fmap, length_seq.
Qed.

Lemma for_each_aggregate_cluster_shape (K : Z) (ds : rasterized_ds)
    (region : string) (labels : list nat) (range : list nat)
    (st st' : cluster_fragment) :
  for_each (aggregate_cluster K ds region labels) range st = Ok st' →
  Forall (λ s, length s = n_timeSteps ds) (represented_timeSeries_perTS st) →
  length (represented_capacities st')
  = length (represented_capacities st)
  ∧ length (represented_timeSeries_perTS st')
    = length (represented_timeSeries_perTS st)
  ∧ Forall (λ s, length s = n_timeSteps ds) (represented_timeSeries_perTS st').
Proof.
  revert st. induction range as [|i range IH]; intros st; simpl.
  - by intros [= <-].
  - destruct (aggregate_cluster K ds region labels i st) as [st1|] eqn:Hstep;
      simpl; [|done].
    apply aggregate_cluster_Ok_shape in Hstep as (c & s & Hs & ->).
    intros Hrun Hall.
    destruct (IH _ Hrun) as (Hc & Ht & Hall'); simpl.
    { by apply Forall_insert. }
    simpl in Hc, Ht. rewrite length_insert in Hc.
    rewrite length_insert in Ht. done.
Qed.

(** X9. Whenever the cluster aggregator returns, whatever the labels, its
    result holds one capacity and one series for each of the
    [n_timeSeries_perRegion] time-series ids, and each series has one value
    per time step. *)
Theorem cluster_fragment_shape
    (fit : Z → list (list value) → option (list nat))
    (K : Z) (ds : rasterized_ds) (region : string) (frag : cluster_fragment) :
  _cluster_RE_technology fit K ds region = Ok frag →
  length (represented_capacities frag) = length (TS_ids K)
  ∧ length (represented_timeSeries_perTS frag) = length (TS_ids K)
  ∧ Forall (λ s, length s = n_timeSteps ds)
           (represented_timeSeries_perTS frag).
Proof.
  unfold _cluster_RE_technology.
  destruct (decide (K < 0)%Z); [done|]. cbv zeta.
  destruct (fit K _) as [labels|]; [|done]. intros Hrun.
  apply for_each_aggregate_cluster_shape in Hrun as (Hc & Ht & Hall); simpl.
  - simpl in Hc, Ht. rewrite length_replicate in Hc.
    rewrite length_replicate in Ht. by rewrite length_TS_ids.
  - apply Forall_replicate. apply length_replicate.
Qed.

Lemma cluster_fragment_shape_witness :
  ∃ frag,
    _cluster_RE_technology fit_single 3 scenario_ds "B" = Ok frag
    ∧ length (represented_capacities frag) = 3
    ∧ length (represented_timeSeries_perTS frag) = 3
    ∧ Forall (λ s, length s = 2) (represented_timeSeries_perTS frag).
Proof.
  assert (∃ frag, _cluster_RE_technology fit_single 3 scenario_ds "B" = Ok frag)
    as [frag Hfrag] by (eexists; by vm_compute).
  exists frag. split; [done|].
  by apply (cluster_fragment_shape fit_single 3 scenario_ds "B" frag).
Defined.

(** X10. When the labels hold more distinct values than time-series ids
    were requested, the loop runs past the last id and the aggregator raises
    the IndexError of [TS_ids[i]] (arrays in lockstep, one label per
    cell). *)
Theorem cluster_raises_on_surplus_labels
    (fit : Z → list (list value) → option (list nat))
    (K : nat) (ds : rasterized_ds) (region : string) (labels : list nat) :
  fit (Z.of_nat K) (samples (n_timeSteps ds) (regional_capfac_da ds region))
  = Some labels →
  lockstep ds region →
  length labels = n_ts ds region →
  K < length (remove_dups labels) →
  _cluster_RE_technology fit (Z.of_nat K) ds region
  = Raise IndexError_list_index.
Proof.
  intros Hfit Hlock Hlen Hm.
  rewrite (lockstep_n_ts _ _ Hlock) in Hlen.
  rewrite (cluster_run_unfold fit K ds region labels Hfit).
  replace (length (remove_dups labels))
    with (K + S (length (remove_dups labels) - S K)) by lia.
  rewrite seq_app, for_each_app. unfold zeros_fragment.
  pose proof (for_each_aggregate_cluster (Z.of_nat K) ds region labels
                Hlock Hlen K) as Hloop.
  rewrite Nat2Z.id in Hloop. rewrite Hloop by done. simpl.
  unfold aggregate_cluster.
  rewrite (boolean_index_Ok (regional_capacity_da ds region)).
  2:{ unfold cluster_mask.
      by rewrite length_fmap, Hlen, (lockstep_filtered _ _ Hlock). }
  unfold mbind, result_bind. cbv beta iota zeta.
  rewrite (lookup_ge_None_2 (TS_ids (Z.of_nat K)) K); [done|].
  rewrite length_TS_ids. lia.
Qed.

Lemma cluster_raises_on_surplus_labels_witness :
  _cluster_RE_technology fit_apart 1 scenario_ds "B"
  = Raise IndexError_list_index.
Proof.
  apply (cluster_raises_on_surplus_labels fit_apart 1 scenario_ds "B" [0; 1]).
  - by vm_compute.
  - by vm_compute.
  - by vm_compute.
  - simpl. lia.
Defined.

(** ** The region decides the result *)

Section same_region.
Context (ds ds' : rasterized_ds) (region : string).
Hypothesis Hsame : same_regional_data ds ds' region.





End same_region.



(** ** A change of the unit of capacity *)

Section scaling.
Local Open Scope Qc_scope.
Context (k : Qc).
Hypothesis Hk : 0 < k.

Lemma Qc_pos_ne_0 : k ≠ 0.
Proof. intros Hz. rewrite Hz in Hk. by apply (irreflexivity Qclt) in Hk. Qed.

Lemma Qcmult_pos_iff (c : Qc) : 0 < k * c ↔ 0 < c.
Proof.
  rewrite (Qcmult_lt_mono_pos_l 0 c k Hk). by rewrite Qcmult_0_r.
Qed.

Lemma Qcmult_neg_iff (p : Qc) : k * p < 0 ↔ p < 0.
Proof.
  rewrite (Qcmult_lt_mono_pos_l p 0 k Hk). by rewrite Qcmult_0_r.
Qed.

Lemma Qcmult_zero_iff (c : Qc) : k * c = 0 ↔ c = 0.
Proof.
  split.
  - apply Qcmult_integral_l, Qc_pos_ne_0.
  - intros ->. apply Qcmult_0_r.
Qed.

Lemma fdiv_scale (p c : Qc) : fdiv (k * p) (k * c) = fdiv p c.
Proof.
  unfold fdiv.
  destruct (decide (c = 0)) as [Hc|Hc].
  - rewrite (decide_True (P := k * c = 0)) by by apply Qcmult_zero_iff.
    destruct (decide (p = 0)) as [Hp|Hp].
    + by rewrite (decide_True (P := k * p = 0)) by by apply Qcmult_zero_iff.
    + rewrite (decide_False (P := k * p = 0))
        by by rewrite Qcmult_zero_iff.
      f_equal. apply bool_decide_ext, Qcmult_neg_iff.
  - rewrite (decide_False (P := k * c = 0)) by by rewrite Qcmult_zero_iff.
    f_equal. field. split; [done|apply Qc_pos_ne_0].
Qed.

Lemma sumQ_scale {A} (g : A → Qc) (l : list A) :
  sumQ ((λ x, k * g x) <$> l) = k * sumQ (g <$> l).
Proof.
  induction l as [|x l IH]; [simpl; ring|].
  rewrite !fmap_cons. unfold sumQ in *. cbn [foldr]. rewrite IH. ring.
Qed.

Context (ds : rasterized_ds) (region : string).

Lemma scale_cell_capacity (i : nat) :
  cell_capacity (scale_capacity k ds) i = k * cell_capacity ds i.
Proof.
  unfold cell_capacity, scale_capacity. simpl.
  destruct (capacity ds i); simpl; [done|ring].
Qed.

Lemma scale_capacity_cells :
  capacity_cells (scale_capacity k ds) region = capacity_cells ds region.
Proof.
  unfold capacity_cells. simpl. apply list_filter_iff. intros i.
  unfold regional_cell, positive_capacity. simpl.
  destruct (capacity ds i) as [c|]; simpl; [|done].
  rewrite !bool_decide_spec, Qcmult_pos_iff. done.
Qed.

Lemma scale_filtered_cells :
  filtered_cells (scale_capacity k ds) region = filtered_cells ds region.
Proof.
  by rewrite !filtered_cells_capacity_cells, scale_capacity_cells.
Qed.
End scaling.

(** X14. Multiplying every capacity of the dataset by the same positive
    factor (a change of unit) does not change the time series returned by
    the simple aggregator (in exact arithmetic; on binary64 within
    floating-point tolerance). *)
Theorem simple_series_scale_invariant (k : Qc) (ds : rasterized_ds)
    (region : string) :
  (0 < k)%Qc →
  represented_timeSeries
    (_simply_aggregate_RE_technology (scale_capacity k ds) region)
  = represented_timeSeries (_simply_aggregate_RE_technology ds region).
Proof.
  intros Hk. rewrite !simple_aggregate_closed_form. simpl.
  rewrite scale_capacity_cells, scale_filtered_cells by done.
  apply list_fmap_ext. intros _ t _.
  rewrite (sumQ_ext (cell_capacity (scale_capacity k ds))
             (λ i, k * cell_capacity ds i)%Qc)
    by (intros; by apply scale_cell_capacity).
  rewrite (sumQ_ext
             (λ i, cell_capacity (scale_capacity k ds) i
                   * cell_capfac (scale_capacity k ds) i t)%Qc
             (λ i, k * (cell_capacity ds i * cell_capfac ds i t))%Qc).
  2:{ intros i _. rewrite scale_cell_capacity.
      unfold cell_capfac. simpl. ring. }
  rewrite (sumQ_scale k (cell_capacity ds)).
  rewrite (sumQ_scale k (λ i, cell_capacity ds i * cell_capfac ds i t)%Qc).
  by apply fdiv_scale.
Qed.

Lemma simple_series_scale_invariant_witness :
  represented_timeSeries
    (_simply_aggregate_RE_technology
       (scale_capacity (Q2Qc (1000 # 1)) scenario_ds) "B")
  = represented_timeSeries (_simply_aggregate_RE_technology scenario_ds "B").
Proof.
  apply simple_series_scale_invariant.
  apply (bool_decide_unpack _). by vm_compute.
Defined.
(** ** The scheduler: what the merged dataset holds *)

(** X15. In simple mode, with distinct region ids and at least one time
    step, the invocation returns a dataset that holds, for each region id
    of the rasterized dataset, the result of the simple aggregator for that
    region, and holds nothing for any other label. *)
Theorem represent_simple_lookup
    (fit : Z → list (list value) → option (list nat))
    (ds : rasterized_ds) :
  NoDup (region_ids ds) →
  0 < n_timeSteps ds →
  ∃ out,
    represent_RE_technology fit ds 1 = Ok out
    ∧ ∀ region,
        out !! region
        = if decide (region ∈ region_ids ds)
          then Some (Simple (_simply_aggregate_RE_technology ds region))
          else None.
Proof.
  intros Hnd HT.
  destruct (represent_returns fit ds 1 Hnd HT) as (out & Hrun & Hlook);
    [done|].
  exists out. split; [done|]. intros region. rewrite Hlook.
  by rewrite (decide_True (P := 1%Z = 1%Z)).
Qed.

Lemma represent_simple_lookup_witness :
  ∃ out,
    represent_RE_technology fit_in_turn scenario_ds 1 = Ok out
    ∧ out !! "B"
      = Some (Simple (_simply_aggregate_RE_technology scenario_ds "B"))
    ∧ out !! "D" = None.
Proof.
  destruct (represent_simple_lookup fit_in_turn scenario_ds)
    as (out & Hrun & Hlook).
  - apply (bool_decide_unpack _). by vm_compute.
  - simpl. lia.
  - exists out. split; [done|]. split.
    + rewrite Hlook. apply decide_True.
      apply (bool_decide_unpack _). by vm_compute.
    + rewrite Hlook. apply decide_False.
      apply (bool_decide_unpack _). by vm_compute.
Defined.

(** X16. In cluster mode, when the task of every region returns, the
    invocation returns a dataset that holds for each region id the fragment
    of that region's task, and nothing for any other label: fragments of
    different regions never conflict in the merge. *)
Theorem represent_cluster_lookup
    (fit : Z → list (list value) → option (list nat))
    (ds : rasterized_ds) (K : Z) :
  K ≠ 1%Z →
  Forall (λ region, ∃ f, cluster_task fit K ds region = Ok f)
         (region_ids ds) →
  ∃ out,
    represent_RE_technology fit ds K = Ok out
    ∧ (∀ region f,
         region ∈ region_ids ds →
         cluster_task fit K ds region = Ok f →
         out !! region = Some (Clustered f))
    ∧ ∀ region, region ∉ region_ids ds → out !! region = None.
Proof.
  intros HK Hall. rewrite represent_cluster_mode by done.
  destruct (gather_and_merge_Ok (cluster_task fit K ds) Clustered
              (clustered_fragment fit K ds) (region_ids ds))
    as (out & Hrun & Hlook).
  { eapply Forall_impl; [exact Hall|]. intros region [f Hf]. simpl.
    rewrite Hf. apply cluster_task_Ok in Hf as (_ & _ & Hf).
    unfold clustered_fragment. by rewrite Hf. }
  exists out. split; [done|]. split.
  - intros region f Hin Hf. rewrite Hlook, decide_True by done.
    apply cluster_task_Ok in Hf as (_ & _ & Hf).
    unfold clustered_fragment. by rewrite Hf.
  - intros region Hin. by rewrite Hlook, decide_False.
Qed.

Lemma represent_cluster_lookup_witness :
  ∃ out f,
    represent_RE_technology fit_in_turn fractional_ds 2 = Ok out
    ∧ cluster_task fit_in_turn 2 fractional_ds "R" = Ok f
    ∧ out !! "R" = Some (Clustered f).
Proof.
  destruct (represent_cluster_lookup fit_in_turn fractional_ds 2)
    as (out & Hrun & Hlook & _).
  - done.
  - apply Forall_singleton. eexists. by vm_compute.
  - assert (∃ f, cluster_task fit_in_turn 2 fractional_ds "R" = Ok f)
      as [f Hf] by (eexists; by vm_compute).
    exists out, f. split; [done|]. split; [done|].
    apply Hlook; [|done]. apply (bool_decide_unpack _). by vm_compute.
Defined.

(** X17. In cluster mode, when the task of one region raises, the
    invocation raises: no merged dataset is returned for the other
    regions. *)
Theorem represent_cluster_fails
    (fit : Z → list (list value) → option (list nat))
    (ds : rasterized_ds) (K : Z) (region : string) (e : exn) :
  K ≠ 1%Z →
  region ∈ region_ids ds →
  _cluster_RE_technology fit K ds region = Raise e →
  ∃ e', represent_RE_technology fit ds K = Raise e'.
Proof.
  intros HK Hin Hraise. rewrite represent_cluster_mode by done.
  destruct (cluster_task_Raise fit K ds region e Hraise) as [e1 He1].
  by eapply gather_and_merge_Raise.
Qed.

Lemma represent_cluster_fails_witness :
  ∃ e', represent_RE_technology fit_in_turn scenario_ds 2 = Raise e'.
Proof.
  apply (represent_cluster_fails fit_in_turn scenario_ds 2 "C" ClusteringError).
  - done.
  - apply (bool_decide_unpack _). by vm_compute.
  - by vm_compute.
Defined.

(** ** What makes the tasks raise *)

(** X21. When no cell of a region that is listed once has a positive
    capacity, the task of the simple aggregator returns the capacity 0 and
    NaN at every time step: [0.0/0.0] is a warning, not an exception. *)
Theorem simple_task_without_capacity (ds : rasterized_ds) (region : string) :
  NoDup (region_ids ds) →
  region ∈ region_ids ds →
  0 < n_timeSteps ds →
  capacity_cells ds region = [] →
  simple_task ds region
  = Ok {| represented_capacity := 0;
          represented_timeSeries := replicate (n_timeSteps ds) NaN |}.
Proof.
  intros Hnd Hin HT Hempty. rewrite simple_task_listed by done.
  f_equal. apply simple_aggregate_empty_region.
  by rewrite x_y_regional_capacity_da.
Qed.

Lemma simple_task_without_capacity_witness :
  simple_task scenario_ds "C"
  = Ok {| represented_capacity := 0; represented_timeSeries := [NaN; NaN] |}.
Proof.
  apply (simple_task_without_capacity scenario_ds "C").
  - apply (bool_decide_unpack _). by vm_compute.
  - apply (bool_decide_unpack _). by vm_compute.
  - simpl. lia.
  - by vm_compute.
Defined.

(** X22. An invocation over a rasterized dataset that lists a region id
    twice, or that lists a region and has no time step, raises, in simple
    mode and in cluster mode. *)
Theorem represent_raises_on_axes
    (fit : Z → list (list value) → option (list nat))
    (ds : rasterized_ds) (K : Z) :
  ¬ NoDup (region_ids ds) ∨ (region_ids ds ≠ [] ∧ n_timeSteps ds = 0) →
  ∃ e, represent_RE_technology fit ds K = Raise e.
Proof.
  intros Hbad.
  destruct (represent_RE_technology fit ds K) as [out|e] eqn:Hrun;
    [|by exists e].
  apply represent_Ok_inv in Hrun as (Hnd & HT & _).
  destruct Hbad as [Hdup|[Hne H0]]; [done|].
  destruct (region_ids ds) as [|r rs]; [done|].
  apply Forall_cons in HT as [HT _]. lia.
Qed.

Lemma represent_raises_on_axes_witness :
  ∃ e, represent_RE_technology fit_in_turn repeated_ds 2 = Raise e.
Proof.
  apply represent_raises_on_axes. left.
  intros Hnd. apply NoDup_cons in Hnd as [Hin _]. apply Hin. by left.
Defined.

(** ** Populated clusters and recombination *)

Section populated.
Context (K : nat) (ds : rasterized_ds) (region : string) (labels : list nat).
Hypothesis Hlen : length labels = length (filtered_cells ds region).
Hypothesis Hlt : Forall (λ l, l < K) labels.
Hypothesis HK : length (remove_dups labels) = K.

Let closed : cluster_fragment :=
  {| represented_capacities := cluster_capacity ds region labels <$> seq 0 K;
     represented_timeSeries_perTS :=
       cluster_capfac ds region labels <$> seq 0 K |}.

Lemma closed_TS_capacity (k : nat) :
  k < K → TS_capacity closed k = cluster_capacity ds region labels k.
Proof.
  intros Hk. unfold TS_capacity, closed. simpl.
  by rewrite list_lookup_fmap, lookup_seq_lt.
Qed.

Lemma closed_TS_capfac (k t : nat) :
  k < K → t < n_timeSteps ds →
  TS_capfac closed k t
  = Fin (cluster_power ds region labels k t
         / cluster_capacity ds region labels k)%Qc
  ∧ (0 < cluster_capacity ds region labels k)%Qc.
Proof.
  intros Hk Ht.
  assert (0 < cluster_capacity ds region labels k)%Qc as Hpos.
  { apply cluster_capacity_pos; [done|]. by eapply labels_cover. }
  split; [|done]. unfold TS_capfac, closed. simpl.
  rewrite list_lookup_fmap, lookup_seq_lt by done. simpl.
  unfold cluster_capfac. rewrite list_lookup_fmap, lookup_seq_lt by done.
  simpl. unfold fdiv. rewrite decide_False; [done|].
  intros Hz. rewrite Hz in Hpos. by apply (irreflexivity Qclt) in Hpos.
Qed.

Lemma closed_capacity_sum :
  sumQ (TS_capacity closed <$> seq 0 K)
  = sumQ (cell_capacity ds <$> filtered_cells ds region).
Proof.
  rewrite <-(select_partition_sum (cell_capacity ds) labels
               (filtered_cells ds region) K) by done.
  f_equal. apply list_fmap_ext. intros i k Hk.
  apply lookup_seq in Hk as [-> Hk]. by apply closed_TS_capacity.
Qed.

Lemma closed_power_sum (t : nat) :
  t < n_timeSteps ds →
  fsum ((λ k, fmul (Fin (TS_capacity closed k)) (TS_capfac closed k t))
          <$> seq 0 K)
  = Fin (sumQ ((λ i, cell_capacity ds i * cell_capfac ds i t)%Qc
                 <$> filtered_cells ds region)).
Proof.
  intros Ht.
  rewrite <-(select_partition_sum
               (λ i, cell_capacity ds i * cell_capfac ds i t)%Qc labels
               (filtered_cells ds region) K) by done.
  rewrite <-(fsum_Fin (λ k, cluster_power ds region labels k t)).
  f_equal. apply list_fmap_ext. intros i k Hk.
  apply lookup_seq in Hk as [-> Hk]. cbn [Nat.add].
  destruct (closed_TS_capfac i t Hk Ht) as [-> Hpos].
  rewrite closed_TS_capacity by done. simpl. f_equal. field.
  intros Hz. rewrite Hz in Hpos. by apply (irreflexivity Qclt) in Hpos.
Qed.
End populated.

(** X18. Whenever the cluster aggregator returns for labels that form [K]
    clusters, every time series has a strictly positive capacity: no
    cluster is empty. *)
Theorem clusters_populated
    (fit : Z → list (list value) → option (list nat))
    (K : nat) (ds : rasterized_ds) (region : string) (labels : list nat)
    (frag : cluster_fragment) (k : nat) :
  fit (Z.of_nat K) (samples (n_timeSteps ds) (regional_capfac_da ds region))
  = Some labels →
  K_clusters K (n_ts ds region) labels →
  _cluster_RE_technology fit (Z.of_nat K) ds region = Ok frag →
  k < K →
  (0 < TS_capacity frag k)%Qc.
Proof.
  intros Hfit Hclusters Hrun Hk.
  destruct (cluster_result fit K ds region labels Hfit Hclusters frag Hrun)
    as [Hlen ->].
  destruct Hclusters as (_ & Hlt & HK).
  rewrite closed_TS_capacity by done.
  apply cluster_capacity_pos; [done|]. by eapply labels_cover.
Qed.

Lemma clusters_populated_witness :
  ∃ frag,
    _cluster_RE_technology fit_in_turn 2 scenario_ds "B" = Ok frag
    ∧ (0 < TS_capacity frag 1)%Qc.
Proof.
  assert (∃ frag, _cluster_RE_technology fit_in_turn 2 scenario_ds "B" = Ok frag)
    as [frag Hfrag] by (eexists; by vm_compute).
  exists frag. split; [done|].
  apply (clusters_populated fit_in_turn 2 scenario_ds "B" [0; 1] frag 1).
  - by vm_compute.
  - unfold K_clusters.
    split; [by vm_compute|split; [repeat constructor|by vm_compute]].
  - done.
  - lia.
Defined.

(** X19. Clustering then recombining gives the simple result: with the
    arrays in lockstep and labels that form [K] clusters, the
    capacity-weighted mean of the [K] cluster series (total cluster power
    over total cluster capacity) is, at every time step, the value the
    simple aggregator returns for the region (in exact arithmetic; on
    binary64 within floating-point tolerance). *)
Theorem clusters_recombine_to_simple
    (fit : Z → list (list value) → option (list nat))
    (K : nat) (ds : rasterized_ds) (region : string) (labels : list nat)
    (frag : cluster_fragment) (t : nat) :
  fit (Z.of_nat K) (samples (n_timeSteps ds) (regional_capfac_da ds region))
  = Some labels →
  K_clusters K (n_ts ds region) labels →
  lockstep ds region →
  _cluster_RE_technology fit (Z.of_nat K) ds region = Ok frag →
  t < n_timeSteps ds →
  ∃ p,
    fsum ((λ k, fmul (Fin (TS_capacity frag k)) (TS_capfac frag k t))
            <$> seq 0 K) = Fin p
    ∧ represented_timeSeries (_simply_aggregate_RE_technology ds region) !! t
      = Some (fdiv p (sumQ (TS_capacity frag <$> seq 0 K))).
Proof.
  intros Hfit Hclusters Hlock Hrun Ht.
  destruct (cluster_result fit K ds region labels Hfit Hclusters frag Hrun)
    as [Hlen ->].
  destruct Hclusters as (_ & Hlt & HK).
  eexists. split; [by apply closed_power_sum|].
  rewrite closed_capacity_sum by done.
  rewrite simple_aggregate_closed_form. simpl.
  rewrite list_lookup_fmap, lookup_seq_lt by done. simpl.
  by rewrite lockstep_capacity_cells.
Qed.

Lemma clusters_recombine_to_simple_witness :
  ∃ frag p,
    _cluster_RE_technology fit_in_turn 2 scenario_ds "B" = Ok frag
    ∧ fsum ((λ k, fmul (Fin (TS_capacity frag k)) (TS_capfac frag k 0))
              <$> seq 0 2) = Fin p
    ∧ represented_timeSeries (_simply_aggregate_RE_technology scenario_ds "B")
        !! 0
      = Some (fdiv p (sumQ (TS_capacity frag <$> seq 0 2))).
Proof.
  assert (∃ frag, _cluster_RE_technology fit_in_turn 2 scenario_ds "B" = Ok frag)
    as [frag Hfrag] by (eexists; by vm_compute).
  destruct (clusters_recombine_to_simple fit_in_turn 2 scenario_ds "B" [0; 1]
              frag 0) as (p & Hp & Hs).
  - by vm_compute.
  - unfold K_clusters.
    split; [by vm_compute|split; [repeat constructor|by vm_compute]].
  - by vm_compute.
  - done.
  - simpl. lia.
  - by exists frag, p.
Defined.

(** ** The simple series on every input *)

Section sublist_sum.
Local Open Scope Qc_scope.

Lemma sumQ_filter_le {A} (g : A → Qc) (P : A → Prop)
    `{∀ x, Decision (P x)} (l : list A) :
  (∀ x, x ∈ l → 0 ≤ g x) →
  0 ≤ sumQ (g <$> filter P l) ∧ sumQ (g <$> filter P l) ≤ sumQ (g <$> l).
Proof.
  induction l as [|x l IH]; intros Hg.
  - split; apply Qcle_refl.
  - destruct IH as [IH0 IH1]; [intros y Hy; apply Hg; by right|].
    assert (0 ≤ g x) as Hx by (apply Hg; by left).
    rewrite filter_cons, (fmap_cons g x l).
    change (sumQ (g x :: (g <$> l))) with (g x + sumQ (g <$> l)).
    destruct (decide (P x)).
    + rewrite fmap_cons.
      change (sumQ (g x :: (g <$> filter P l)))
        with (g x + sumQ (g <$> filter P l)).
      split.
      * by apply Qcplus_nonneg_nonneg.
      * apply Qcplus_le_compat; [apply Qcle_refl|done].
    + split; [done|].
      rewrite <-(Qcplus_0_l (sumQ (g <$> filter P l))).
      by apply Qcplus_le_compat.
Qed.
End sublist_sum.

(** X20. On every input with a cell of positive capacity in the region,
    also with the arrays out of lockstep: if the capacity factors of the
    filtered cells at a time step lie in [0, hi] (with 0 <= hi), the value
    returned by the simple aggregator at that step lies in [0, hi] (in
    exact arithmetic; on binary64 within floating-point tolerance). *)
Theorem simple_capfac_in_range (ds : rasterized_ds) (region : string)
    (t : nat) (hi : Qc) :
  x_y (regional_capacity_da ds region) ≠ [] →
  t < n_timeSteps ds →
  (0 ≤ hi)%Qc →
  Forall (λ i, (0 ≤ cell_capfac ds i t ≤ hi)%Qc) (filtered_cells ds region) →
  ∃ v, represented_timeSeries (_simply_aggregate_RE_technology ds region) !! t
       = Some (Fin v)
       ∧ (0 ≤ v ≤ hi)%Qc.
Proof.
  intros Hne Ht Hhi0 Hf. rewrite x_y_regional_capacity_da in Hne.
  rewrite simple_aggregate_closed_form. simpl.
  rewrite list_lookup_fmap, lookup_seq_lt by done. simpl.
  assert (∀ i, i ∈ capacity_cells ds region → (0 < cell_capacity ds i)%Qc)
    as Hcpos.
  { intros i Hi. apply capacity_cells_value in Hi as (c & Hc & Hpos).
    unfold cell_capacity. by rewrite Hc. }
  assert (0 < sumQ (cell_capacity ds <$> capacity_cells ds region))%Qc
    as HC by by apply sumQ_pos.
  unfold fdiv. rewrite decide_False.
  2:{ intros Hz. rewrite Hz in HC. by apply (irreflexivity Qclt) in HC. }
  eexists. split; [done|].
  destruct (sumQ_weighted_bounds (cell_capacity ds)
              (λ i, cell_capfac ds i t) 0%Qc hi (filtered_cells ds region))
    as [Hlo Hhi].
  { rewrite Forall_forall in Hf. intros i Hi. split; [|by apply Hf].
    apply Qclt_le_weak, Hcpos. by apply filtered_cells_capacity. }
  destruct (sumQ_filter_le (cell_capacity ds) (complete_capfac ds)
              (capacity_cells ds region)) as [Hf0 Hfle].
  { intros i Hi. by apply Qclt_le_weak, Hcpos. }
  rewrite <-filtered_cells_capacity_cells in Hf0, Hfle.
  apply Qcdiv_bounds; [done| |].
  - by rewrite Qcmult_0_l in *.
  - etrans; [exact Hhi|]. by apply Qcmult_le_mono_nonneg_l.
Qed.

Lemma simple_capfac_in_range_witness :
  ∃ v, represented_timeSeries (_simply_aggregate_RE_technology missing_ds "R")
         !! 0 = Some (Fin v)
       ∧ (0 ≤ v ≤ 1)%Qc.
Proof.
  apply (simple_capfac_in_range missing_ds "R" 0 1%Qc).
  - by vm_compute.
  - simpl. lia.
  - apply (bool_decide_unpack _). by vm_compute.
  - apply (bool_decide_unpack _). by vm_compute.
Defined.

(** ** Instances of the properties without premise *)


Lemma capacity_total_zero_iff_empty_witness :
  sum_1d (regional_capacity_da scenario_ds "C") = 0%Qc.
Proof.
  apply (capacity_total_zero_iff_empty scenario_ds "C"). by vm_compute.
Defined.
